(** * css-checker: the CSS coverage analysis of [src/pages/api/check-css.ts]

    A shallow embedding of the API handler's analysis code
    ([parseCSSRules], [isRuleUsed], the per-entry loop of [handler], the
    usage percentage and the result cache) and the properties of the
    design document proved about it.

    Modelling conventions.
    - A JavaScript string is the list of its UTF-16 code units
      ([cssText[i]], [length], [indexOf], [trim] and [split] all work on
      code units); a code unit is an [N].
    - The byte counts ([text.length], [range.start], [range.end] and their
      sums) are JavaScript numbers holding integers; they are modelled as
      [Z], exact (no rounding above 2^53).
    - The one quotient of the program, [usagePercent], is a [jsnum]: the
      value of a double as a rational, or NaN, or an infinity, so that a
      division by zero is visible. [/] and [*] round their exact result
      to the nearest double, ties to even ([round53]). The exponent range
      of a double is not modelled (no overflow, no subnormals): with byte
      counts below 2^53 the quotients and products of the program lie
      between 2^-53 and 2^60.
    - [resultCache] is a [gmap] from the requested URL to the cached
      entry; [Date.now()] is an explicit argument. *)

From Stdlib Require Import ZArith NArith QArith Qpower Lia List Ascii String.
From stdpp Require Import base list gmap.

Local Open Scope Z_scope.

(** ** JavaScript strings *)

Module JS.

Definition char := N.
Abbreviation jsstring := (list char).

(** A string literal of the source, as code units. *)
Definition str (s : string) : jsstring :=
  map N_of_ascii (list_ascii_of_string s).

Definition lbrace : char := 123%N.   (* "{" *)
Definition rbrace : char := 125%N.   (* "}" *)

(** [s.length], as a JavaScript number. *)
Definition jslength (s : jsstring) : Z := Z.of_nat (length s).

(** ECMAScript WhiteSpace and LineTerminator code points, the characters
    that [String.prototype.trim] strips. *)
Definition is_ws (c : char) : bool :=
  ((9 <=? c) && (c <=? 13) || (c =? 32) || (c =? 160) || (c =? 5760)
   || (8192 <=? c) && (c <=? 8202) || (c =? 8232) || (c =? 8233)
   || (c =? 8239) || (c =? 8287) || (c =? 12288) || (c =? 65279))%N.

Fixpoint trimStart (s : jsstring) : jsstring :=
  match s with
  | c :: s' => if is_ws c then trimStart s' else s
  | [] => []
  end.

Definition trimEnd (s : jsstring) : jsstring := rev (trimStart (rev s)).

(** [s.trim()] *)
Definition trim (s : jsstring) : jsstring := trimEnd (trimStart s).

(** [s.startsWith(p)] *)
Fixpoint startsWith (s p : jsstring) {struct p} : bool :=
  match p, s with
  | [], _ => true
  | _ :: _, [] => false
  | a :: p', b :: s' => (a =? b)%N && startsWith s' p'
  end.

(** [s.indexOf(p)]: the search of String.prototype.indexOf from position
    0; [i] is the position of the head of [s] in the whole string. *)
Fixpoint indexOf_from (s p : jsstring) (i : Z) : Z :=
  if startsWith s p then i
  else match s with
       | [] => -1
       | _ :: s' => indexOf_from s' p (i + 1)
       end.

Definition indexOf (s p : jsstring) : Z := indexOf_from s p 0.

(** [s.split(sep)[0]] for a one-character separator: the characters
    before the first [sep], or all of [s] when there is none. *)
Fixpoint split_head (sep : char) (s : jsstring) : jsstring :=
  match s with
  | [] => []
  | c :: s' => if (c =? sep)%N then [] else c :: split_head sep s'
  end.

(** JavaScript numbers as far as the quotient needs them. *)
Inductive jsnum :=
| JFin (q : Q)
| JNaN
| JInf (negative : bool).

(** The integer [k] with [2^k <= q < 2^(k+1)], for [q > 0]. *)
Definition ilog2 (q : Q) : Z :=
  let s := Z.log2 (Zpos (Qden q)) + 1 in
  Z.log2 (Qnum q * 2 ^ s / Zpos (Qden q)) - s.

(** The integer nearest to [q], the even one of the two when [q] is half
    way, for [q >= 0]. *)
Definition rne (q : Q) : Z :=
  let d := Zpos (Qden q) in
  let f := Qnum q / d in
  match 2 * (Qnum q mod d) ?= d with
  | Lt => f
  | Gt => f + 1
  | Eq => if Z.even f then f else f + 1
  end.

(** The double nearest to [q], for [q > 0]: a multiple of [2^e] with a
    significand of 53 bits, [e] being the exponent of [q] minus 52. *)
Definition round53_pos (q : Q) : Q :=
  let e := ilog2 q - 52 in
  Qred (inject_Z (rne (q / 2 ^ e)) * 2 ^ e)%Q.

(** Rounding to the nearest double, ties to even. *)
Definition round53 (q : Q) : Q :=
  match Qnum q with
  | 0 => 0%Q
  | Zpos _ => round53_pos q
  | Zneg _ => Qred (- round53_pos (- q))%Q
  end.

(** [a / b] on integer-valued numbers. *)
Definition js_div (a b : Z) : jsnum :=
  if b =? 0 then (if a =? 0 then JNaN else JInf (a <? 0))
  else JFin (round53 (inject_Z a / inject_Z b)%Q).

(** [x * y] *)
Definition js_mul (x y : jsnum) : jsnum :=
  match x, y with
  | JNaN, _ | _, JNaN => JNaN
  | JFin p, JFin q => JFin (round53 (p * q)%Q)
  | JInf n, JFin q | JFin q, JInf n =>
      match Qcompare q 0 with
      | Eq => JNaN
      | Lt => JInf (negb n)
      | Gt => JInf n
      end
  | JInf n, JInf m => JInf (xorb n m)
  end.

End JS.
Import JS.

(** ** The analysis code *)

(** One coverage range [{ start, end }]. *)
Record Range := mkRange { r_start : Z; r_end : Z }.

(** type CSSRule *)
Record CSSRule := mkCSSRule {
  selector : jsstring;
  used : bool;
  bytes : Z
}.

(** type CSSFileDetail *)
Record CSSFileDetail := mkCSSFileDetail {
  fd_url : jsstring;
  fd_total : Z;
  fd_used : Z;
  unusedRules : list CSSRule
}.

(** type CSSUsageResult *)
Record CSSUsageResult := mkCSSUsageResult {
  totalBytes : Z;
  usedBytes : Z;
  usagePercent : jsnum;
  files : list CSSFileDetail
}.

(** A puppeteer coverage entry [{ url, text, ranges }]. *)
Record CoverageEntry := mkCoverageEntry {
  ce_url : jsstring;
  ce_text : jsstring;
  ce_ranges : list Range
}.

Module Segmenter.

(** The three variables of the loop of [parseCSSRules]. *)
Record state := mkState {
  rules : list jsstring;
  currentRule : jsstring;
  braceCount : Z
}.

Definition init : state := mkState [] [] 0.

(** One iteration of the [for] loop, on the character [c]. *)
Definition step (st : state) (c : char) : state :=
  let cur := currentRule st ++ [c] in
  let bc := if (c =? lbrace)%N then braceCount st + 1 else braceCount st in
  if (c =? rbrace)%N then
    let bc' := bc - 1 in
    if bc' =? 0 then mkState (rules st ++ [trim cur]) [] bc'
    else mkState (rules st) cur bc'
  else mkState (rules st) cur bc.

Definition run (st : state) (cssText : jsstring) : state :=
  fold_left step cssText st.

Definition parseCSSRules (cssText : jsstring) : list jsstring :=
  rules (run init cssText).

End Segmenter.
Import Segmenter.

(** [ranges.some(range => ruleStart >= range.start &&
    ruleStart + rule.length <= range.end)] *)
Definition range_holds (ruleStart len : Z) (range : Range) : bool :=
  (r_start range <=? ruleStart) && (ruleStart + len <=? r_end range).

Definition isRuleUsed (rule cssText : jsstring) (ranges : list Range) : bool :=
  let ruleStart := indexOf cssText rule in
  if ruleStart =? -1 then false
  else existsb (range_holds ruleStart (jslength rule)) ranges.

Module Handler.

Definition CACHE_TTL : Z := 1000 * 60 * 60.

(** A value of [resultCache]: [{ result, timestamp }]. *)
Record CacheEntry := mkCacheEntry {
  result : CSSUsageResult;
  timestamp : Z
}.

Abbreviation cache := (gmap jsstring CacheEntry).

(** The cache check at the head of [handler]:
    [resultCache.get(url)], served only when
    [Date.now() - cached.timestamp < CACHE_TTL]. *)
Definition cache_get (now : Z) (url : jsstring) (c : cache)
  : option CSSUsageResult :=
  match c !! url with
  | Some cached =>
      if now - timestamp cached <? CACHE_TTL then Some (result cached)
      else None
  | None => None
  end.

(** [resultCache.set(url, { result, timestamp: Date.now() })] *)
Definition cache_put (now : Z) (url : jsstring) (res : CSSUsageResult)
    (c : cache) : cache :=
  <[url := mkCacheEntry res now]> c.

(** [entry.ranges.reduce((sum, range) => sum + (range.end - range.start), 0)] *)
Definition usedOf (ranges : list Range) : Z :=
  fold_left (fun sum range => sum + (r_end range - r_start range)) ranges 0.

(** The body of [for (const rule of rules)]. *)
Definition rule_step (entry : CoverageEntry) (unused : list CSSRule)
    (rule : jsstring) : list CSSRule :=
  let selector := trim (split_head lbrace rule) in
  let ruleBytes := jslength rule in
  if negb (isRuleUsed rule (ce_text entry) (ce_ranges entry))
  then unused ++ [mkCSSRule selector false ruleBytes]
  else unused.

(** The variables [totalBytes], [usedBytes] and [files] of [handler]. *)
Record acc := mkAcc {
  a_totalBytes : Z;
  a_usedBytes : Z;
  a_files : list CSSFileDetail
}.

(** What one iteration of [for (const entry of cssCoverage)] pushes on
    [files]. *)
Definition fileDetail (entry : CoverageEntry) : CSSFileDetail :=
  let total := jslength (ce_text entry) in
  let used := usedOf (ce_ranges entry) in
  let rules := parseCSSRules (ce_text entry) in
  let unused := fold_left (rule_step entry) rules [] in
  mkCSSFileDetail
    (match ce_url entry with [] => str "inline <style>" | u => u end)
    total used unused.

(** The body of [for (const entry of cssCoverage)]. *)
Definition entry_step (a : acc) (entry : CoverageEntry) : acc :=
  let d := fileDetail entry in
  mkAcc (a_totalBytes a + fd_total d) (a_usedBytes a + fd_used d)
        (a_files a ++ [d]).

(** From [let totalBytes = 0] to [const result = ...]. *)
Definition analyze (cssCoverage : list CoverageEntry) : CSSUsageResult :=
  let a := fold_left entry_step cssCoverage (mkAcc 0 0 []) in
  let usagePercent :=
    if a_totalBytes a >? 0
    then js_mul (js_div (a_usedBytes a) (a_totalBytes a)) (JFin 100)
    else JFin 0 in
  mkCSSUsageResult (a_totalBytes a) (a_usedBytes a) usagePercent (a_files a).

(** A request: its method and [req.body]. [req_body] is [None] when
    [req.body] is null or undefined; otherwise it holds what
    [const { url } = req.body] gives, [None] when that is absent or not a
    string. *)
Record request := mkRequest {
  method : jsstring;
  req_body : option (option jsstring)
}.

(** [url] of [req.body], when there is a body and it has one. *)
Definition body_url (req : request) : option jsstring :=
  match req_body req with
  | Some url => url
  | None => None
  end.

(** What [handler] does with a request: it sends an answer, or it throws
    before sending one. *)
Inductive response :=
| Json (status : Z) (body : CSSUsageResult + jsstring)
| Uncaught.

(** [handler]. The browser session (launch, navigation with retries,
    coverage collection) is the argument [browse]: it gives the coverage
    entries of a URL, or fails with the message of the error thrown, if
    it is an [Error]. [now1] and [now2] are the two readings of
    [Date.now()]. On a body that is null or undefined the destructuring
    [const { url } = req.body], which is outside the [try], throws a
    TypeError and [handler] sends no answer. *)
Definition handler (browse : jsstring -> list CoverageEntry + option jsstring)
    (now1 now2 : Z) (req : request) (c : cache) : response * cache :=
  if negb (bool_decide (method req = str "POST"))
  then (Json 405 (inr (str "Method Not Allowed")), c)
  else
    match req_body req with
    | None => (Uncaught, c)
    | Some None => (Json 400 (inr (str "Invalid URL")), c)
    | Some (Some url) =>
        if negb (startsWith url (str "http"))
        then (Json 400 (inr (str "Invalid URL")), c)
        else
          match cache_get now1 url c with
          | Some res => (Json 200 (inl res), c)
          | None =>
              match browse url with
              | inl cssCoverage =>
                  let res := analyze cssCoverage in
                  (Json 200 (inl res), cache_put now2 url res c)
              | inr (Some message) =>
                  (Json 500 (inr (str "CSS analysis failed: " ++ message)), c)
              | inr None => (Json 500 (inr (str "CSS analysis failed")), c)
              end
          end
    end.

End Handler.
Import Handler.

(** ** Notions used to state the properties *)

(** [rule] occurs in [text] at offset [i]. *)
Definition occurs_at (rule text : jsstring) (i : nat) : Prop :=
  exists pre post, text = pre ++ rule ++ post /\ length pre = i.

(** [i] is the offset of the first occurrence of [rule] in [text]. *)
Definition first_occurrence (rule text : jsstring) (i : nat) : Prop :=
  occurs_at rule text i /\ forall j, (j < i)%nat -> ~ occurs_at rule text j.

(** The range [r] contains the span [[i, i + len)]. *)
Definition span_inside (i len : Z) (r : Range) : Prop :=
  r_start r <= i /\ i + len <= r_end r.

(** The span [[i, i + len)] and the range [r] have a byte in common. *)
Definition span_overlaps (i len : Z) (r : Range) : Prop :=
  r_start r < i + len /\ i < r_end r.

(** Net nesting of a piece of text: the number of "{" minus the number
    of "}". *)
Definition delta (c : char) : Z :=
  if (c =? lbrace)%N then 1 else if (c =? rbrace)%N then -1 else 0.

Definition depth (s : jsstring) : Z := foldr (fun c d => delta c + d) 0 s.

(** The character at index [k] of [text] is a "}" on which the nesting of
    the text read so far is back to zero. *)
Definition closing_at (text : jsstring) (k : nat) : bool :=
  bool_decide (text !! k = Some rbrace) && (depth (take (S k) text) =? 0).

(** The indices of the closing braces of [text], increasing. *)
Definition cuts (text : jsstring) : list nat :=
  List.filter (closing_at text) (seq 0 (length text)).

(** The pieces of [text] that end at the indices [ends], the first one
    starting at index [from], each of the others right after the previous
    one. *)
Fixpoint slices (text : jsstring) (from : nat) (ends : list nat)
  : list jsstring :=
  match ends with
  | [] => []
  | k :: ks => take (S k - from) (drop from text) :: slices text (S k) ks
  end.

(** The number of characters that [trim] removes at the head of [s]. *)
Definition leading_ws (s : jsstring) : nat :=
  (length s - length (trimStart s))%nat.

(** The offsets in [text] at which the trimmed pieces of [slices] start. *)
Fixpoint starts (text : jsstring) (from : nat) (ends : list nat) : list nat :=
  match ends with
  | [] => []
  | k :: ks =>
      (from + leading_ws (take (S k - from) (drop from text)))%nat
      :: starts text (S k) ks
  end.

(** For each rule of [parseCSSRules text], in order, the offset in [text]
    of the place the rule was cut from. *)
Definition ruleStarts (text : jsstring) : list nat :=
  starts text 0 (cuts text).

(** Where the buffer of the segmenter starts after [text]: right after the
    last closing brace. *)
Definition buf_start (text : jsstring) : nat :=
  match last (cuts text) with
  | Some k => S k
  | None => 0%nat
  end.

(** Every prefix of [s] has nesting 0 or 1: blocks that are not nested. *)
Definition flat (s : jsstring) : Prop :=
  forall k, 0 <= depth (take k s) <= 1.

Definition sumZ (l : list Z) : Z := foldr Z.add 0 l.

(** The number of bytes of a range. *)
Definition span (r : Range) : Z := r_end r - r_start r.

(** The ranges lie in [[0, n]] and are not empty. *)
Definition range_in (n : Z) (r : Range) : Prop :=
  0 <= r_start r /\ r_start r < r_end r /\ r_end r <= n.

Definition disjoint (r1 r2 : Range) : Prop :=
  r_end r1 <= r_start r2 \/ r_end r2 <= r_start r1.

Fixpoint pairwise_disjoint (l : list Range) : Prop :=
  match l with
  | [] => True
  | r :: l' => Forall (disjoint r) l' /\ pairwise_disjoint l'
  end.

(** [x], moved left by the size of [r] when it lies right of [r]. *)
Definition shift (r x : Range) : Range :=
  if r_end r <=? r_start x
  then mkRange (r_start x - span r) (r_end x - span r)
  else x.

(** The classification of one rule of an entry, as the design document
    defines it: selector, used flag, size. *)
Definition classify (entry : CoverageEntry) (rule : jsstring) : CSSRule :=
  mkCSSRule (trim (split_head lbrace rule))
            (isRuleUsed rule (ce_text entry) (ce_ranges entry))
            (jslength rule).

(** ** The navigation loop of [handler] *)

Module Navigation.

(** What one [await page.goto(url, ...)] does: it resolves, or throws
    [error] (the message, when the value thrown is an [Error]). *)
Inductive attempt :=
| Resolved
| Rejected (error : option jsstring).

(** How the [while (retries > 0)] loop ends: it is left (by [break], or
    because [retries] is 0), or it throws. [gotos] counts the calls of
    [page.goto], [slept] the milliseconds of [setTimeout] waited. *)
Inductive outcome :=
| Left (gotos : nat) (slept : Z)
| Thrown (error : option jsstring) (gotos : nat) (slept : Z).

(** The loop, from a value of [retries]; the i-th call of [page.goto]
    behaves as [goto i]. *)
Fixpoint navigate (goto : nat -> attempt) (retries : nat) (gotos : nat)
    (slept : Z) : outcome :=
  match retries with
  | O => Left gotos slept
  | S retries' =>
      match goto gotos with
      | Resolved => Left (S gotos) slept
      | Rejected error =>
          match retries' with
          | O => Thrown error (S gotos) slept
          | S _ => navigate goto retries' (S gotos) (slept + 1000)
          end
      end
  end.

(** [let retries = 3; while (retries > 0) ...] *)
Definition navigation (goto : nat -> attempt) : outcome :=
  navigate goto 3 0 0.

(** A browser session in which only [page.goto] can throw: the coverage
    collected once the navigation loop is left, or the error that the
    loop throws, as the [catch] of [handler] sees it. *)
Definition session (goto : jsstring -> nat -> attempt)
    (coverage : jsstring -> list CoverageEntry) (url : jsstring)
  : list CoverageEntry + option jsstring :=
  match navigation (goto url) with
  | Left _ _ => inl (coverage url)
  | Thrown error _ _ => inr error
  end.

End Navigation.
Import Navigation.

(** ** The page that shows and exports a result *)

Module Page.

(** [(file.used / file.total) * 100], the number that [FileDetails] and
    [exportToExcel] format with [toFixed(2)]. *)
Definition fileUsage (file : CSSFileDetail) : jsnum :=
  js_mul (js_div (fd_used file) (fd_total file)) (JFin 100).

(** A row of the sheet: the four columns of [baseData], and the two
    columns that only the rows of unused rules have. *)
Record ExcelRow := mkExcelRow {
  x_fileUrl : jsstring;
  x_totalBytes : Z;
  x_usedBytes : Z;
  x_usagePercentage : jsstring;
  x_unusedSelector : option jsstring;
  x_unusedBytes : option Z
}.

(** The callback of [result.files.flatMap] in [exportToExcel];
    [toFixed2 x] stands for [x.toFixed(2)]. *)
Definition fileRows (toFixed2 : jsnum -> jsstring) (file : CSSFileDetail)
  : list ExcelRow :=
  let baseData rule_selector rule_bytes :=
    mkExcelRow (fd_url file) (fd_total file) (fd_used file)
               (toFixed2 (fileUsage file) ++ str "%")
               rule_selector rule_bytes in
  match unusedRules file with
  | [] => [baseData None None]
  | rules =>
      map (fun rule => baseData (Some (selector rule)) (Some (bytes rule)))
          rules
  end.

(** [excelData] of [exportToExcel], for a result that is not null. *)
Definition excelData (toFixed2 : jsnum -> jsstring) (result : CSSUsageResult)
  : list ExcelRow :=
  flat_map (fileRows toFixed2) (files result).

End Page.
Import Page.

(** ** Notions used to state further properties *)

(** A rule with no nested block: [sel{body}], no brace in [sel] or
    [body]. *)
Definition flatRule (sb : jsstring * jsstring) : jsstring :=
  fst sb ++ lbrace :: snd sb ++ [rbrace].

Definition brace_free (s : jsstring) : Prop :=
  (lbrace ∉ s) /\ (rbrace ∉ s).

(** What the buffer holds when a rule is pushed. *)
Definition rule_of_segment (rule : jsstring) : Prop :=
  exists seg, rule = trim seg /\ last seg = Some rbrace /\ depth seg = 0.

(** The ranges of an entry are not empty, lie inside its text and do not
    overlap. *)
Definition ranges_ok (entry : CoverageEntry) : Prop :=
  Forall (range_in (jslength (ce_text entry))) (ce_ranges entry)
  /\ pairwise_disjoint (ce_ranges entry).

(** The status and the body of the answer, when one is sent. *)
Definition status_of (r : response) : option Z :=
  match r with
  | Json status _ => Some status
  | Uncaught => None
  end.

Definition body_of (r : response) : option (CSSUsageResult + jsstring) :=
  match r with
  | Json _ body => Some body
  | Uncaught => None
  end.

(** The requests that pass the two checks at the head of [handler]. *)
Definition valid_url (req : request) (url : jsstring) : Prop :=
  body_url req = Some url /\ startsWith url (str "http") = true.

(** Every key of the cache is a URL that passes the check of [handler],
    and every cached result is the analysis of some coverage. *)
Definition cache_ok (c : cache) : Prop :=
  forall k e, c !! k = Some e ->
    startsWith k (str "http") = true
    /\ exists cssCoverage, result e = analyze cssCoverage.

(** The number of rows that a file gives in the sheet. *)
Definition rowsOf (file : CSSFileDetail) : nat :=
  Nat.max 1 (length (unusedRules file)).

(** ** Worked examples *)

Example parse_two : parseCSSRules (str ".a{color:red}.b{color:blue}")
                    = [str ".a{color:red}"; str ".b{color:blue}"].
Proof. reflexivity. Qed.

Example trim_example :
  trim (str "  .a { color: red }  ") = str ".a { color: red }"
  /\ trim [9; 10; 160; 8232; 65279]%N = [].
Proof. split; reflexivity. Qed.

Example indexOf_example :
  indexOf (str "b{a{}}a{}") (str "a{}") = 2
  /\ indexOf (str "b{a{}}a{}") (str "c{}") = -1
  /\ indexOf (str "abc") [] = 0.
Proof. repeat split. Qed.

Example scenario1 :
  fileDetail (mkCoverageEntry (str "https://x/a.css")
                (str ".a{color:red}.b{color:blue}") [mkRange 0 13])
  = mkCSSFileDetail (str "https://x/a.css") 27 13
      [mkCSSRule (str ".b") false 14].
Proof. reflexivity. Qed.

Example scenario4 :
  usagePercent (analyze [mkCoverageEntry [] (repeat 97%N 50) [mkRange 0 50];
                         mkCoverageEntry [] (repeat 97%N 30) []])
  = JFin (125 # 2).
Proof. reflexivity. Qed.

(** Seven bytes used of twenty-five: 28.000000000000004, that is
    28 + 2^-48, as the doubles of the program give it. *)
Example usagePercent_rounds :
  usagePercent (analyze [mkCoverageEntry [] (repeat 97%N 25) [mkRange 0 7]])
  = JFin (7881299347898369 # 281474976710656)
  /\ round53 (1 # 10) = (3602879701896397 # 36028797018963968)%Q
  /\ round53 (9007199254740993 # 1) = (9007199254740992 # 1)%Q.
Proof. repeat split. Qed.

(** ** Strings: [startsWith], [indexOf], [trim] *)

Section Strings.

Implicit Types s p rule text : jsstring.

Lemma startsWith_true s p :
  startsWith s p = true <-> exists post, s = p ++ post.
Proof.
  revert s; induction p as [|a p IH]; intros s; simpl.
  - split; [intros _; by exists s | done].
  - destruct s as [|b s].
    + split; [done | intros [post H]; discriminate H].
    + rewrite andb_true_iff, N.eqb_eq, IH. split.
      * intros [-> [post ->]]. by exists post.
      * intros [post H]. injection H as -> ->. eauto.
Qed.

Lemma occurs_at_0 rule s :
  occurs_at rule s 0 <-> startsWith s rule = true.
Proof.
  rewrite startsWith_true. split.
  - intros (pre & post & -> & Hl). destruct pre; [|discriminate Hl].
    by exists post.
  - intros [post ->]. by exists [], post.
Qed.

Lemma occurs_at_S rule c s k :
  occurs_at rule (c :: s) (S k) <-> occurs_at rule s k.
Proof.
  split.
  - intros (pre & post & H & Hl). destruct pre as [|c' pre]; [discriminate Hl|].
    injection H as -> ->. injection Hl as <-. by exists pre, post.
  - intros (pre & post & -> & <-). by exists (c :: pre), post.
Qed.

Lemma occurs_at_nil rule k :
  occurs_at rule [] k -> rule = [] /\ k = 0%nat.
Proof.
  intros (pre & post & H & <-). symmetry in H.
  apply app_eq_nil in H as [-> H]. by apply app_eq_nil in H as [-> _].
Qed.

(** The search either fails, and there is no occurrence at all, or gives
    the offset of the first occurrence. *)
Lemma indexOf_from_cases s rule i :
  (indexOf_from s rule i = -1 /\ forall k, ~ occurs_at rule s k)
  \/ (exists k, indexOf_from s rule i = i + Z.of_nat k
                /\ first_occurrence rule s k).
Proof.
  revert i; induction s as [|c s IH]; intros i; simpl;
    destruct (startsWith _ rule) eqn:Hsw.
  - right. exists 0%nat. split; [lia|]. split; [by apply occurs_at_0 | lia].
  - left. split; [done|]. intros k Hk.
    apply occurs_at_nil in Hk as [-> _]. discriminate Hsw.
  - right. exists 0%nat. split; [lia|]. split; [by apply occurs_at_0 | lia].
  - destruct (IH (i + 1)) as [[Hm Hno] | (k & Hk & Hocc & Hmin)].
    + left. split; [done|]. intros [|k] Hk.
      * apply occurs_at_0 in Hk. congruence.
      * apply occurs_at_S in Hk. by apply (Hno k).
    + right. exists (S k). split; [lia|]. split; [by apply occurs_at_S|].
      intros [|j] Hj Hoc.
      * apply occurs_at_0 in Hoc. congruence.
      * apply occurs_at_S in Hoc. apply (Hmin j); [lia | done].
Qed.

Lemma first_occurrence_unique rule text i j :
  first_occurrence rule text i -> first_occurrence rule text j -> i = j.
Proof.
  intros [Hi Hmi] [Hj Hmj].
  destruct (lt_eq_lt_dec i j) as [[H | H] | H]; [|done|].
  - destruct (Hmj i H Hi).
  - destruct (Hmi j H Hj).
Qed.

Lemma indexOf_found rule text i :
  first_occurrence rule text i -> indexOf text rule = Z.of_nat i.
Proof.
  intros Hi. unfold indexOf.
  destruct (indexOf_from_cases text rule 0) as [[_ Hno] | (k & -> & Hk)].
  - destruct Hi as [Hi _]. destruct (Hno i Hi).
  - by rewrite (first_occurrence_unique _ _ _ _ Hi Hk).
Qed.

Lemma indexOf_not_found rule text :
  indexOf text rule = -1 <-> forall k, ~ occurs_at rule text k.
Proof.
  unfold indexOf.
  destruct (indexOf_from_cases text rule 0) as [[-> Hno] | (k & -> & Hk & _)].
  - done.
  - split; [lia|]. intros Hno. destruct (Hno k Hk).
Qed.

Lemma indexOf_substring pre rule post :
  exists i, indexOf (pre ++ rule ++ post) rule = Z.of_nat i
            /\ first_occurrence rule (pre ++ rule ++ post) i.
Proof.
  unfold indexOf.
  destruct (indexOf_from_cases (pre ++ rule ++ post) rule 0)
    as [[_ Hno] | (k & -> & Hk)].
  - destruct (Hno (length pre)). by exists pre, post.
  - exists k. split; [lia | done].
Qed.

Lemma trimStart_suffix s : exists pre, s = pre ++ trimStart s.
Proof.
  induction s as [|c s [pre IH]]; simpl.
  - by exists [].
  - destruct (is_ws c).
    + exists (c :: pre). simpl. by rewrite <- IH.
    + by exists [].
Qed.

Lemma trimEnd_prefix s : exists post, s = trimEnd s ++ post.
Proof.
  unfold trimEnd. destruct (trimStart_suffix (rev s)) as [pre H].
  exists (rev pre). rewrite <- rev_app_distr, <- H. by rewrite rev_involutive.
Qed.

(** [s.trim()] is a contiguous piece of [s]. *)
Lemma trim_substring s : exists pre post, s = pre ++ trim s ++ post.
Proof.
  unfold trim. destruct (trimStart_suffix s) as [pre H].
  destruct (trimEnd_prefix (trimStart s)) as [post H'].
  exists pre, post. by rewrite <- H', <- H.
Qed.

End Strings.

(** ** Rounding to the nearest double *)

Section Rounding.

Local Open Scope Q_scope.

Lemma Qdiv_le_cross a b c d : 0 < b -> 0 < d -> a * d <= c * b -> a / b <= c / d.
Proof.
  intros Hb Hd H. apply Qle_shift_div_r; [done|].
  assert (E0 : c / d * b == c * b / d)
    by (field; intros E; rewrite E in Hd; discriminate).
  rewrite E0.
  by apply Qle_shift_div_l.
Qed.

Lemma Qdiv_lt_cross a b c d : 0 < b -> 0 < d -> a * d < c * b -> a / b < c / d.
Proof.
  intros Hb Hd H. apply Qlt_shift_div_r; [done|].
  assert (E0 : c / d * b == c * b / d)
    by (field; intros E; rewrite E in Hd; discriminate).
  rewrite E0.
  by apply Qlt_shift_div_l.
Qed.

Lemma two_pow_pos e : 0 < 2 ^ e.
Proof. by apply Qpower_0_lt. Qed.

Lemma ilog2_spec q : 0 < q -> 2 ^ ilog2 q <= q /\ q < 2 ^ (ilog2 q + 1).
Proof.
  destruct q as [n d]. unfold Qlt at 1. simpl. intros Hn.
  unfold ilog2. cbn [Qnum Qden].
  set (s := (Z.log2 (Z.pos d) + 1)%Z).
  set (y := (n * 2 ^ s / Z.pos d)%Z).
  assert (Hs : (0 <= s)%Z) by (pose proof (Z.log2_nonneg (Z.pos d)); lia).
  assert (Hd : (Z.pos d < 2 ^ s)%Z).
  { pose proof (Z.log2_spec (Z.pos d) ltac:(lia)) as [_ H].
    unfold s. by rewrite <- Z.add_1_r in H. }
  assert (Hy : (y * Z.pos d <= n * 2 ^ s < (y + 1) * Z.pos d)%Z).
  { unfold y. pose proof (Z.div_mod (n * 2 ^ s) (Z.pos d) ltac:(lia)).
    pose proof (Z.mod_pos_bound (n * 2 ^ s) (Z.pos d) ltac:(lia)). lia. }
  assert (Hy1 : (1 <= y)%Z) by nia.
  pose proof (Z.log2_spec y ltac:(lia)) as [HL1 HL2].
  pose proof (Z.log2_nonneg y) as HL0.
  set (L := Z.log2 y) in *. rewrite <- Z.add_1_r in HL2.
  assert (Hq : n # d == inject_Z n / inject_Z (Z.pos d)) by apply Qmake_Qdiv.
  assert (H2 : ~ 2 == 0) by discriminate.
  split.
  - rewrite Qpower_minus by done. rewrite Hq.
    apply Qdiv_le_cross; [apply two_pow_pos | reflexivity |].
    change 2 with (inject_Z 2). rewrite <- !Zpower_Qpower by lia.
    rewrite <- !inject_Z_mult, <- Zle_Qle. nia.
  - replace (L - s + 1)%Z with (L + 1 - s)%Z by lia.
    rewrite Qpower_minus by done. rewrite Hq.
    apply Qdiv_lt_cross; [reflexivity | apply two_pow_pos |].
    change 2 with (inject_Z 2). rewrite <- !Zpower_Qpower by lia.
    rewrite <- !inject_Z_mult, <- Zlt_Qlt. nia.
Qed.

Lemma rne_le y M : y <= inject_Z M -> (rne y <= M)%Z.
Proof.
  destruct y as [n d]. unfold Qle, rne. simpl. intros H.
  pose proof (Z.div_mod n (Z.pos d) ltac:(lia)).
  pose proof (Z.mod_pos_bound n (Z.pos d) ltac:(lia)).
  destruct (Z.compare_spec (2 * (n mod Z.pos d)) (Z.pos d));
    [destruct (Z.even _)| |]; nia.
Qed.

Lemma rne_ge y M : inject_Z M <= y -> (M <= rne y)%Z.
Proof.
  destruct y as [n d]. unfold Qle, rne. simpl. intros H.
  pose proof (Z.div_mod n (Z.pos d) ltac:(lia)).
  pose proof (Z.mod_pos_bound n (Z.pos d) ltac:(lia)).
  destruct (Z.compare_spec (2 * (n mod Z.pos d)) (Z.pos d));
    [destruct (Z.even _)| |]; nia.
Qed.

Lemma round53_pos_nonneg x : 0 < x -> 0 <= round53_pos x.
Proof.
  intros Hx. unfold round53_pos. rewrite Qred_correct.
  set (e := (ilog2 x - 52)%Z).
  apply Qmult_le_0_compat; [|apply Qlt_le_weak, two_pow_pos].
  change 0 with (inject_Z 0). rewrite <- Zle_Qle. apply rne_ge.
  apply Qle_shift_div_l; [apply two_pow_pos|].
  rewrite Qmult_0_l. by apply Qlt_le_weak.
Qed.

Lemma round53_pos_le x B M :
  0 < x -> x <= B -> B == inject_Z M * 2 ^ (ilog2 B - 52) ->
  round53_pos x <= B.
Proof.
  intros Hx HxB HB.
  assert (HB0 : 0 < B) by (eapply Qlt_le_trans; eauto).
  destruct (ilog2_spec x Hx) as [Hk _].
  destruct (ilog2_spec B HB0) as [_ HkB].
  assert (Hle : (ilog2 x <= ilog2 B)%Z).
  { assert (Hlt : 2 ^ ilog2 x < 2 ^ (ilog2 B + 1)).
    { eapply Qle_lt_trans; [exact Hk|]. eapply Qle_lt_trans; eauto. }
    apply Qpower_lt_compat_l_inv in Hlt; [lia | reflexivity]. }
  unfold round53_pos. rewrite Qred_correct.
  set (e := (ilog2 x - 52)%Z). set (eB := (ilog2 B - 52)%Z) in *.
  assert (Hpow : 2 ^ eB == 2 ^ (eB - e) * 2 ^ e).
  { rewrite <- Qpower_plus by discriminate. by replace (eB - e + e)%Z with eB by lia. }
  assert (HR : inject_Z (M * 2 ^ (eB - e)) == inject_Z M * 2 ^ (eB - e)).
  { rewrite inject_Z_mult, Zpower_Qpower by lia. reflexivity. }
  assert (Hy : (rne (x / 2 ^ e) <= M * 2 ^ (eB - e))%Z).
  { apply rne_le. rewrite HR.
    apply Qle_shift_div_r; [apply two_pow_pos|].
    rewrite <- Qmult_assoc, <- Hpow, <- HB. done. }
  rewrite HB, Hpow, Qmult_assoc, <- HR.
  apply Qmult_le_compat_r; [|apply Qlt_le_weak, two_pow_pos].
  by rewrite <- Zle_Qle.
Qed.

Lemma round53_bounds x B M :
  0 <= x <= B -> B == inject_Z M * 2 ^ (ilog2 B - 52) ->
  0 <= round53 x <= B.
Proof.
  intros [H0 HB] HM. unfold round53.
  destruct x as [n d]. simpl. destruct n as [|n|n].
  - split; [done|]. by apply (Qle_trans _ (0 # d)).
  - split; [by apply round53_pos_nonneg | by apply (round53_pos_le _ _ M)].
  - by destruct H0.
Qed.

End Rounding.

(** ** The loop of [parseCSSRules], one character at a time *)

Section SegmenterFacts.

Implicit Types text pre tail rest : jsstring.

Lemma run_snoc st text c : run st (text ++ [c]) = step (run st text) c.
Proof. unfold run. by rewrite fold_left_app. Qed.

Lemma depth_app s t : depth (s ++ t) = depth s + depth t.
Proof. induction s as [|c s IH]; simpl; [done | rewrite IH; lia]. Qed.

Lemma depth_snoc s c : depth (s ++ [c]) = depth s + delta c.
Proof. rewrite depth_app. simpl. lia. Qed.

Lemma delta_rbrace : delta rbrace = -1.
Proof. reflexivity. Qed.

(** The counter is never clamped: it is the net nesting of the text. *)
Lemma braceCount_run st text :
  braceCount (run st text) = braceCount st + depth text.
Proof.
  induction text as [|c text IH] using rev_ind; [simpl; lia|].
  rewrite run_snoc, depth_snoc. unfold step, delta.
  destruct (N.eqb_spec c lbrace) as [->|_]; simpl.
  - rewrite IH. lia.
  - destruct (c =? rbrace)%N; [destruct (_ =? 0)|]; simpl; rewrite IH; lia.
Qed.

Lemma braceCount_init text : braceCount (run init text) = depth text.
Proof. rewrite braceCount_run. simpl. lia. Qed.

Lemma closing_at_last text c :
  closing_at (text ++ [c]) (length text)
  = (c =? rbrace)%N && (depth text - 1 =? 0).
Proof.
  unfold closing_at.
  rewrite lookup_app_r, Nat.sub_diag by lia. simpl.
  rewrite take_ge by (rewrite length_app; simpl; lia).
  destruct (N.eqb_spec c rbrace) as [->|Hc].
  - rewrite bool_decide_eq_true_2 by done.
    rewrite depth_snoc, delta_rbrace.
    by replace (depth text + -1) with (depth text - 1) by lia.
  - rewrite bool_decide_eq_false_2; [done | congruence].
Qed.

Lemma closing_at_app_l text t k :
  (k < length text)%nat -> closing_at (text ++ t) k = closing_at text k.
Proof.
  intros Hk. unfold closing_at.
  rewrite lookup_app_l by done. by rewrite take_app_le by lia.
Qed.

Lemma closing_at_lt text k : closing_at text k = true -> (k < length text)%nat.
Proof.
  unfold closing_at. intros [H _]%andb_true_iff.
  apply bool_decide_eq_true_1 in H. by apply lookup_lt_Some in H.
Qed.

(** The loop pushes a rule exactly on a closing brace, and what it
    pushes is the trimmed buffer. *)
Lemma step_closing text c :
  closing_at (text ++ [c]) (length text) = true ->
  run init (text ++ [c])
  = mkState (rules (run init text)
               ++ [trim (currentRule (run init text) ++ [c])]) [] 0.
Proof.
  rewrite closing_at_last. intros [Hc Hd]%andb_true_iff.
  rewrite run_snoc. unfold step. rewrite Hc.
  apply N.eqb_eq in Hc as ->. simpl.
  rewrite braceCount_init, Hd.
  apply Z.eqb_eq in Hd. by rewrite Hd.
Qed.

Lemma step_not_closing text c :
  closing_at (text ++ [c]) (length text) = false ->
  rules (run init (text ++ [c])) = rules (run init text)
  /\ currentRule (run init (text ++ [c])) = currentRule (run init text) ++ [c].
Proof.
  rewrite closing_at_last. intros H.
  rewrite run_snoc. unfold step.
  destruct (c =? rbrace)%N eqn:Hc; simpl in *; [|done].
  apply N.eqb_eq in Hc as ->. simpl.
  rewrite braceCount_init. by rewrite H.
Qed.

Lemma cuts_snoc text c :
  cuts (text ++ [c])
  = cuts text ++ (if closing_at (text ++ [c]) (length text)
                  then [length text] else []).
Proof.
  unfold cuts. rewrite length_app. simpl.
  rewrite seq_app, List.filter_app. simpl. f_equal.
  apply List.filter_ext_in. intros k Hk%in_seq.
  apply closing_at_app_l. lia.
Qed.

Lemma cuts_lt text : Forall (fun k => (k < length text)%nat) (cuts text).
Proof.
  apply List.Forall_forall. intros k Hk.
  apply List.filter_In in Hk as [Hk%in_seq _]. lia.
Qed.

Lemma cuts_closing text k : k ∈ cuts text <-> closing_at text k = true.
Proof.
  rewrite list_elem_of_In. unfold cuts. rewrite List.filter_In, in_seq.
  split; [by intros [_ H] | intros H; split; [|done]].
  apply closing_at_lt in H. lia.
Qed.

Lemma buf_start_le text : (buf_start text <= length text)%nat.
Proof.
  unfold buf_start. destruct (last (cuts text)) as [k|] eqn:Hl; [|lia].
  apply last_Some_elem_of, list_elem_of_In in Hl.
  pose proof (cuts_lt text) as H. rewrite List.Forall_forall in H.
  specialize (H k Hl). simpl in H. lia.
Qed.

Lemma buf_start_snoc text c :
  buf_start (text ++ [c])
  = if closing_at (text ++ [c]) (length text) then S (length text)
    else buf_start text.
Proof.
  unfold buf_start. rewrite cuts_snoc.
  destruct (closing_at _ _); [by rewrite last_snoc | by rewrite app_nil_r].
Qed.

(** The buffer is the text read since the last closing brace. *)
Lemma currentRule_run text :
  currentRule (run init text) = drop (buf_start text) text.
Proof.
  induction text as [|c text IH] using rev_ind; [done|].
  rewrite buf_start_snoc.
  destruct (closing_at _ _) eqn:Hc.
  - rewrite (step_closing _ _ Hc). simpl.
    rewrite drop_ge; [done | rewrite length_app; simpl; lia].
  - destruct (step_not_closing _ _ Hc) as [_ ->].
    rewrite IH. rewrite drop_app_le by apply buf_start_le. done.
Qed.

Lemma slices_snoc text from ends k :
  slices text from (ends ++ [k])
  = slices text from ends
    ++ [take (S k - match last ends with Some e => S e | None => from end)
             (drop (match last ends with Some e => S e | None => from end)
                   text)].
Proof.
  revert from; induction ends as [|e ends IH]; intros from; simpl; [done|].
  rewrite IH. do 2 f_equal.
  destruct ends as [|e' ends]; [done|].
  change (last (e :: e' :: ends)) with (last (e' :: ends)).
  destruct (last (e' :: ends)) eqn:Hl; [done|].
  by apply last_None in Hl.
Qed.

Lemma slices_app_text text t from ends :
  Forall (fun k => (k < length text)%nat) ends ->
  slices (text ++ t) from ends = slices text from ends.
Proof.
  intros H; revert from.
  induction H as [|k ends Hk _ IH]; intros from; simpl; [done|].
  rewrite IH. f_equal.
  destruct (le_lt_dec from (length text)) as [Hle|Hlt].
  - rewrite drop_app_le by done.
    rewrite take_app_le; [done | rewrite length_drop; lia].
  - by replace (S k - from)%nat with 0%nat by lia.
Qed.

(** The rules are the trimmed pieces of the text between consecutive
    closing braces; whatever follows the last one is in no rule. *)
Lemma parse_slices text :
  parseCSSRules text = map trim (slices text 0 (cuts text)).
Proof.
  unfold parseCSSRules.
  induction text as [|c text IH] using rev_ind; [done|].
  rewrite cuts_snoc. destruct (closing_at _ _) eqn:Hc.
  - rewrite (step_closing _ _ Hc). simpl.
    rewrite IH, slices_snoc, map_app.
    rewrite slices_app_text by apply cuts_lt.
    f_equal. simpl. do 2 f_equal.
    rewrite currentRule_run. fold (buf_start text).
    pose proof (buf_start_le text).
    rewrite drop_app_le by done.
    rewrite take_ge; [done|].
    rewrite length_app, length_drop. simpl. lia.
  - destruct (step_not_closing _ _ Hc) as [-> _].
    rewrite app_nil_r, IH.
    by rewrite slices_app_text by apply cuts_lt.
Qed.

Lemma closing_at_ge text k :
  (length text <= k)%nat -> closing_at text k = false.
Proof.
  intros Hk. destruct (closing_at text k) eqn:H; [|done].
  apply closing_at_lt in H. lia.
Qed.

(** Text in which no brace closes adds no rule. *)
Lemma parse_no_closing pre tail :
  (forall k, (length pre <= k)%nat -> closing_at (pre ++ tail) k = false) ->
  parseCSSRules (pre ++ tail) = parseCSSRules pre.
Proof.
  unfold parseCSSRules.
  induction tail as [|c tail IH] using rev_ind; intros H.
  - by rewrite app_nil_r.
  - rewrite app_assoc in *.
    assert (Hc : closing_at ((pre ++ tail) ++ [c]) (length (pre ++ tail)) = false)
      by (apply H; rewrite length_app; lia).
    destruct (step_not_closing _ _ Hc) as [-> _].
    apply IH. intros k Hk.
    destruct (le_lt_dec (length (pre ++ tail)) k) as [Hge|Hlt].
    + by apply closing_at_ge.
    + rewrite <- (closing_at_app_l _ [c]) by done. by apply H.
Qed.

Lemma closing_at_rbrace text k :
  closing_at text k = true -> text !! k = Some rbrace.
Proof.
  unfold closing_at. intros [H _]%andb_true_iff.
  by apply bool_decide_eq_true_1 in H.
Qed.

Lemma parse_no_rbrace text : rbrace ∉ text -> parseCSSRules text = [].
Proof.
  intros H. apply (parse_no_closing [] text). intros k _. simpl.
  destruct (closing_at text k) eqn:Hc; [|done].
  apply closing_at_rbrace, list_elem_of_lookup_2 in Hc. by destruct H.
Qed.

Lemma depth_take_S text k c :
  text !! k = Some c -> depth (take (S k) text) = depth (take k text) + delta c.
Proof. intros H. by rewrite (take_S_r _ _ _ H), depth_snoc. Qed.

(** Reading a character that is not a closing brace pushes no rule. *)
Lemma parse_take_S text k :
  closing_at text k = false ->
  parseCSSRules (take (S k) text) = parseCSSRules (take k text).
Proof.
  intros Hc. destruct (text !! k) as [c|] eqn:Hk.
  - rewrite (take_S_r _ _ _ Hk).
    apply parse_no_closing. intros j Hj.
    pose proof (lookup_lt_Some _ _ _ Hk) as Hlt.
    rewrite length_take in Hj.
    destruct (decide (j = k)) as [->|Hne].
    + rewrite <- Hc, <- (take_S_r _ _ _ Hk).
      rewrite <- (closing_at_app_l (take (S k) text) (drop (S k) text) k)
        by (rewrite length_take; lia).
      by rewrite take_drop.
    + apply closing_at_ge. rewrite length_app, length_take. simpl. lia.
  - apply lookup_ge_None in Hk. by rewrite !take_ge by lia.
Qed.

End SegmenterFacts.

(** ** The usage classifier [isRuleUsed] *)

Section Classifier.

Implicit Types rule text : jsstring.
Implicit Types ranges : list Range.

Lemma range_holds_inside i len r :
  range_holds i len r = true <-> span_inside i len r.
Proof.
  unfold range_holds, span_inside.
  by rewrite andb_true_iff, !Z.leb_le.
Qed.

Lemma isRuleUsed_at rule text ranges i :
  first_occurrence rule text i ->
  isRuleUsed rule text ranges = true
  <-> exists r, r ∈ ranges /\ span_inside (Z.of_nat i) (jslength rule) r.
Proof.
  intros Hi. unfold isRuleUsed. rewrite (indexOf_found _ _ _ Hi).
  destruct (Z.eqb_spec (Z.of_nat i) (-1)) as [Hneg|_]; [lia|].
  rewrite existsb_exists.
  split; intros (r & Hr & H); exists r.
  - by rewrite list_elem_of_In, <- range_holds_inside.
  - by rewrite <- list_elem_of_In, range_holds_inside.
Qed.

Lemma isRuleUsed_absent rule text ranges :
  indexOf text rule = -1 -> isRuleUsed rule text ranges = false.
Proof. unfold isRuleUsed. by intros ->. Qed.

Lemma slices_substring text from ends s :
  s ∈ slices text from ends -> exists pre post, text = pre ++ s ++ post.
Proof.
  revert from; induction ends as [|k ends IH]; intros from; simpl.
  - by intros ?%elem_of_nil.
  - intros [-> | H]%elem_of_cons; [|by apply (IH (S k))].
    exists (take from text), (drop (S k - from) (drop from text)).
    by rewrite take_drop, take_drop.
Qed.

(** Every rule of the segmenter is a contiguous piece of its text. *)
Lemma parsed_rule_substring text rule :
  rule ∈ parseCSSRules text -> exists pre post, text = pre ++ rule ++ post.
Proof.
  rewrite parse_slices, list_elem_of_In, in_map_iff.
  intros (seg & <- & Hseg%list_elem_of_In).
  destruct (slices_substring _ _ _ _ Hseg) as (pre & post & ->).
  destruct (trim_substring seg) as (pre' & post' & H).
  exists (pre ++ pre'), (post' ++ post).
  rewrite H at 1. by rewrite <- !app_assoc.
Qed.

End Classifier.

(** C3. The classifier takes the first occurrence of the rule's text in
    the stylesheet as the rule's start: the search fails (gives -1)
    exactly when the text does not occur, and then the rule is unused;
    otherwise the search result is the offset of the first occurrence,
    and the rule is used iff some range [r] has
    [ruleStart >= r.start] and [ruleStart + length(rule) <= r.end]. *)
Theorem isRuleUsed_first_occurrence (rule text : jsstring) (ranges : list Range) :
  (indexOf text rule = -1 <-> forall i, ~ occurs_at rule text i)
  /\ (indexOf text rule = -1 -> isRuleUsed rule text ranges = false)
  /\ (forall i, first_occurrence rule text i -> indexOf text rule = Z.of_nat i)
  /\ (isRuleUsed rule text ranges = true
      <-> exists i, first_occurrence rule text i
          /\ exists r, r ∈ ranges
             /\ Z.of_nat i >= r_start r
             /\ Z.of_nat i + jslength rule <= r_end r).
Proof.
  split; [apply indexOf_not_found|].
  split; [apply isRuleUsed_absent|].
  split; [apply indexOf_found|].
  destruct (indexOf_from_cases text rule 0) as [[Hm Hno] | (k & _ & Hk)].
  - rewrite (isRuleUsed_absent _ _ _ Hm). split; [done|].
    intros (i & [Hi _] & _). destruct (Hno i Hi).
  - rewrite (isRuleUsed_at _ _ _ _ Hk). unfold span_inside. split.
    + intros (r & Hr & H1 & H2). exists k. split; [done|].
      exists r. repeat split; [done | lia | done].
    + intros (i & Hi & r & Hr & H1 & H2).
      rewrite (first_occurrence_unique _ _ _ _ Hk Hi).
      exists r. repeat split; [done | lia | done].
Qed.

(** C9. Every rule that the segmenter emits for a text is a contiguous
    piece of that text, so the classifier's search for it in the same
    text succeeds: [indexOf] does not give -1 and the not-found branch
    is not taken. *)
Theorem parsed_rule_is_found (text rule : jsstring) :
  rule ∈ parseCSSRules text ->
  (exists pre post, text = pre ++ rule ++ post)
  /\ indexOf text rule <> -1
  /\ (exists i, indexOf text rule = Z.of_nat i /\ first_occurrence rule text i)
  /\ forall ranges,
       isRuleUsed rule text ranges
       = existsb (range_holds (indexOf text rule) (jslength rule)) ranges.
Proof.
  intros (pre & post & ->)%parsed_rule_substring.
  destruct (indexOf_substring pre rule post) as (i & Hi & Hfirst).
  split; [by exists pre, post|].
  split; [lia|].
  split; [by exists i|].
  intros ranges. unfold isRuleUsed. rewrite Hi.
  by destruct (Z.eqb_spec (Z.of_nat i) (-1)) as [Hneg|_]; [lia|].
Qed.

Lemma parsed_rule_is_found_witness :
  let text := str ".a{color:red} .b{color:blue}" in
  let rule := str ".b{color:blue}" in
  rule ∈ parseCSSRules text /\ indexOf text rule <> -1.
Proof.
  intros text rule.
  assert (H : rule ∈ parseCSSRules text)
    by (apply list_elem_of_In; vm_compute; right; left; reflexivity).
  split; [exact H|].
  exact (proj1 (proj2 (parsed_rule_is_found text rule H))).
Defined.

(** ** Where a rule was cut from, and where the classifier finds it *)

Section RulePositions.

Implicit Types rule text : jsstring.

Lemma trimStart_leading s :
  exists pre, s = pre ++ trimStart s /\ length pre = leading_ws s.
Proof.
  destruct (trimStart_suffix s) as [pre H]. exists pre. split; [done|].
  unfold leading_ws. rewrite H at 1. rewrite length_app. lia.
Qed.

Lemma starts_occurs text rule p : forall ends from j,
  (from <= length text)%nat ->
  Forall (fun k => (k < length text)%nat) ends ->
  map trim (slices text from ends) !! j = Some rule ->
  starts text from ends !! j = Some p ->
  occurs_at rule text p.
Proof.
  induction ends as [|k ends IH]; intros from j Hfrom Hends; [done|].
  apply Forall_cons_1 in Hends as [Hk Hends].
  destruct j as [|j]; simpl.
  - intros [= <-] [= <-].
    set (seg := take (S k - from) (drop from text)).
    destruct (trimStart_leading seg) as (ws & Hseg & Hws).
    destruct (trimEnd_prefix (trimStart seg)) as [post Hpost].
    exists (take from text ++ ws), (post ++ drop (S k - from) (drop from text)).
    split.
    + rewrite <- (take_drop from text) at 1.
      rewrite <- (take_drop (S k - from) (drop from text)) at 1.
      fold seg. rewrite Hseg at 1. rewrite Hpost at 1.
      unfold trim. by rewrite <- !app_assoc.
    + rewrite length_app, length_take, Hws. lia.
  - apply IH; [lia | done].
Qed.

(** The place a rule was cut from holds the rule's text. *)
Lemma ruleStarts_occurs text j rule p :
  parseCSSRules text !! j = Some rule -> ruleStarts text !! j = Some p ->
  occurs_at rule text p.
Proof.
  rewrite parse_slices. unfold ruleStarts.
  apply starts_occurs; [lia | apply cuts_lt].
Qed.

Lemma starts_length text ends from :
  length (starts text from ends) = length (slices text from ends).
Proof.
  revert from; induction ends as [|k ends IH]; intros from; simpl; [done|].
  by rewrite IH.
Qed.

Lemma ruleStarts_length text :
  length (ruleStarts text) = length (parseCSSRules text).
Proof.
  rewrite parse_slices, length_map. apply starts_length.
Qed.

Lemma first_occurrence_le rule text i p :
  first_occurrence rule text i -> occurs_at rule text p -> (i <= p)%nat.
Proof.
  intros [_ Hmin] Hp. destruct (le_lt_dec i p) as [|Hlt]; [done|].
  destruct (Hmin p Hlt Hp).
Qed.

End RulePositions.

(** C2, as the code has it. For a rule that comes from segmenting the
    stylesheet's text, the span that the classifier tests is that of the
    first occurrence of the rule's text,
    [[ruleStart, ruleStart + length(rule))]; it is the place the rule
    was cut from when the same text does not occur earlier in the
    stylesheet. If that span lies inside one of the ranges the rule is
    used; if it overlaps a range without lying inside any single range
    the rule is unused. *)
Theorem rule_span_classification (text rule : jsstring) (j p : nat)
    (ranges : list Range) :
  parseCSSRules text !! j = Some rule ->
  ruleStarts text !! j = Some p ->
  exists ruleStart : nat,
    first_occurrence rule text ruleStart
    /\ occurs_at rule text p
    /\ (ruleStart <= p)%nat
    /\ ((forall q, (q < p)%nat -> ~ occurs_at rule text q) -> ruleStart = p)
    /\ ((exists r, r ∈ ranges
                   /\ span_inside (Z.of_nat ruleStart) (jslength rule) r)
        -> isRuleUsed rule text ranges = true)
    /\ ((exists r, r ∈ ranges
                   /\ span_overlaps (Z.of_nat ruleStart) (jslength rule) r)
        -> (forall r, r ∈ ranges
                      -> ~ span_inside (Z.of_nat ruleStart) (jslength rule) r)
        -> isRuleUsed rule text ranges = false).
Proof.
  intros Hrule Hp.
  pose proof (ruleStarts_occurs _ _ _ _ Hrule Hp) as Hocc.
  destruct (indexOf_from_cases text rule 0) as [[_ Hno] | (i & _ & Hfirst)];
    [destruct (Hno p Hocc)|].
  exists i. split; [done|]. split; [done|].
  pose proof (first_occurrence_le _ _ _ _ Hfirst Hocc) as Hle.
  split; [done|]. split.
  { intros Hmin. destruct (decide (i = p)) as [|Hne]; [done|].
    destruct Hfirst as [Hi _]. destruct (Hmin i); [lia | done]. }
  pose proof (isRuleUsed_at rule _ ranges i Hfirst) as Hiff.
  split.
  - intros H. by apply Hiff.
  - intros _ Hnone.
    destruct (isRuleUsed rule _ ranges) eqn:Hused; [|done].
    destruct (proj1 Hiff eq_refl) as (r & Hr & Hin).
    destruct (Hnone r Hr Hin).
Qed.

Lemma rule_span_classification_witness :
  let text := str ".a{color:red} .b{color:blue}" in
  let rule := str ".b{color:blue}" in
  let ranges := [mkRange 0 13; mkRange 14 28] in
  parseCSSRules text !! 1%nat = Some rule
  /\ ruleStarts text !! 1%nat = Some 14%nat
  /\ exists ruleStart : nat,
       first_occurrence rule text ruleStart
       /\ occurs_at rule text 14
       /\ (ruleStart <= 14)%nat
       /\ ((forall q, (q < 14)%nat -> ~ occurs_at rule text q) -> ruleStart = 14%nat)
       /\ ((exists r, r ∈ ranges
                      /\ span_inside (Z.of_nat ruleStart) (jslength rule) r)
           -> isRuleUsed rule text ranges = true)
       /\ ((exists r, r ∈ ranges
                      /\ span_overlaps (Z.of_nat ruleStart) (jslength rule) r)
           -> (forall r, r ∈ ranges
                         -> ~ span_inside (Z.of_nat ruleStart) (jslength rule) r)
           -> isRuleUsed rule text ranges = false).
Proof.
  intros text rule ranges.
  assert (H1 : parseCSSRules text !! 1%nat = Some rule) by reflexivity.
  assert (H2 : ruleStarts text !! 1%nat = Some 14%nat) by reflexivity.
  split; [exact H1|]. split; [exact H2|].
  exact (rule_span_classification text rule 1 14 ranges H1 H2).
Defined.

(** C2, as stated of the span a rule was cut from, fails. In
    "ul li{margin:0}li{margin:0}" the second rule is cut from offset 15,
    while its text first occurs at offset 3, inside the first rule. With
    the range [[15, 27)], which is the rule's own span, it is unused;
    with the ranges [[3, 15)] and [[16, 20)], of which the second
    overlaps its span and none contains it, it is used. *)
Lemma own_span_misclassified :
  let text := str "ul li{margin:0}li{margin:0}" in
  let rule := str "li{margin:0}" in
  parseCSSRules text !! 1%nat = Some rule
  /\ ruleStarts text !! 1%nat = Some 15%nat
  /\ indexOf text rule = 3
  /\ span_inside 15 (jslength rule) (mkRange 15 27)
  /\ isRuleUsed rule text [mkRange 15 27] = false
  /\ span_overlaps 15 (jslength rule) (mkRange 16 20)
  /\ (forall r, r ∈ [mkRange 3 15; mkRange 16 20] ->
        ~ span_inside 15 (jslength rule) r)
  /\ isRuleUsed rule text [mkRange 3 15; mkRange 16 20] = true.
Proof.
  intros text rule.
  repeat (split; [vm_compute; first [reflexivity | split; congruence]|]).
  split; [|reflexivity].
  intros r Hr [H1 H2]. apply list_elem_of_In in Hr.
  destruct Hr as [<-|[<-|[]]]; vm_compute in H1, H2; congruence.
Qed.

(** ** The rule segmenter [parseCSSRules] *)

Section SegmenterProperties.

Implicit Types text pre tail rest : jsstring.

(** Reading a closing brace pushes the trimmed buffer. *)
Lemma parse_take_S_closing text k :
  closing_at text k = true ->
  parseCSSRules (take (S k) text)
  = parseCSSRules (take k text)
    ++ [trim (drop (buf_start (take k text)) (take (S k) text))].
Proof.
  intros Hc. pose proof (closing_at_lt _ _ Hc) as Hlt.
  pose proof (closing_at_rbrace _ _ Hc) as Hk.
  rewrite (take_S_r _ _ _ Hk).
  assert (Hc' : closing_at (take k text ++ [rbrace]) (length (take k text)) = true).
  { rewrite length_take, Nat.min_l by lia.
    rewrite <- Hc, <- (take_S_r _ _ _ Hk).
    rewrite <- (closing_at_app_l (take (S k) text) (drop (S k) text) k)
      by (rewrite length_take; lia).
    by rewrite take_drop. }
  unfold parseCSSRules. rewrite (step_closing _ _ Hc'). simpl.
  rewrite currentRule_run.
  by rewrite drop_app_le by apply buf_start_le.
Qed.

Lemma is_ws_not_rbrace text :
  Forall (fun c => is_ws c = true) text -> rbrace ∉ text.
Proof.
  intros H Hin. rewrite List.Forall_forall in H.
  apply list_elem_of_In, H in Hin. discriminate Hin.
Qed.

Lemma depth_take_app pre s k :
  depth (take (length pre + k) (pre ++ s)) = depth pre + depth (take k s).
Proof. by rewrite take_app_add, depth_app. Qed.

(** After a "}" read at nesting zero or below, a brace that closes a
    block of the rest of the text no longer closes. *)
Lemma stray_closing pre rest k :
  depth pre <= 0 ->
  closing_at rest k = true ->
  closing_at (pre ++ rbrace :: rest) (length pre + 1 + k) = false.
Proof.
  intros Hpre Hc. unfold closing_at in *.
  apply andb_true_iff in Hc as [_ Hd%Z.eqb_eq].
  apply andb_false_iff. right. apply Z.eqb_neq.
  replace (S (length pre + 1 + k)) with (length pre + S (S k))%nat by lia.
  rewrite depth_take_app. simpl take. change (rbrace :: take (S k) rest)
    with ([rbrace] ++ take (S k) rest).
  rewrite depth_app, Hd. change (depth [rbrace]) with (-1). lia.
Qed.

(** After such a stray "}", blocks that are not nested give no rule. *)
Lemma stray_flat pre rest :
  depth pre <= 0 -> flat rest ->
  parseCSSRules (pre ++ rbrace :: rest) = parseCSSRules pre.
Proof.
  intros Hpre Hflat. apply parse_no_closing. intros k Hk.
  destruct (closing_at _ k) eqn:Hc; [exfalso|done].
  pose proof (closing_at_rbrace _ _ Hc) as Hlook.
  unfold closing_at in Hc. apply andb_true_iff in Hc as [_ Hd%Z.eqb_eq].
  replace (S k) with (length pre + S (k - length pre))%nat in Hd by lia.
  rewrite depth_take_app in Hd. simpl take in Hd.
  change (rbrace :: take (k - length pre) rest)
    with ([rbrace] ++ take (k - length pre) rest) in Hd.
  rewrite depth_app in Hd. change (depth [rbrace]) with (-1) in Hd.
  rewrite lookup_app_r in Hlook by done.
  destruct (k - length pre)%nat as [|j] eqn:Hj.
  - simpl in Hd. lia.
  - simpl in Hlook.
    rewrite (depth_take_S _ _ _ Hlook), delta_rbrace in Hd.
    pose proof (Hflat j). lia.
Qed.

End SegmenterProperties.

(** C4. The segmenter reads the text once, keeping the brace depth, and
    pushes the trimmed buffer exactly when a "}" brings the depth back to
    zero: the rules are the trimmed pieces of the text between
    consecutive closing braces. Hence trailing text in which no brace
    closes is dropped, and an empty or whitespace-only text gives no
    rule. *)
Theorem parseCSSRules_segments :
  (forall text k, (k < length text)%nat ->
     parseCSSRules (take (S k) text)
     = parseCSSRules (take k text)
       ++ (if closing_at text k
           then [trim (drop (buf_start (take k text)) (take (S k) text))]
           else []))
  /\ (forall text, parseCSSRules text = map trim (slices text 0 (cuts text)))
  /\ (forall pre tail,
        (forall k, (length pre <= k)%nat -> closing_at (pre ++ tail) k = false) ->
        parseCSSRules (pre ++ tail) = parseCSSRules pre)
  /\ parseCSSRules [] = []
  /\ (forall text, Forall (fun c => is_ws c = true) text ->
        parseCSSRules text = []).
Proof.
  split; [|split; [|split; [|split]]].
  - intros text k _. destruct (closing_at text k) eqn:Hc.
    + by apply parse_take_S_closing.
    + rewrite app_nil_r. by apply parse_take_S.
  - apply parse_slices.
  - apply parse_no_closing.
  - reflexivity.
  - intros text H. by apply parse_no_rbrace, is_ws_not_rbrace.
Qed.

(** C10, as the code has it. The brace counter is not clamped at zero:
    it is the number of "{" minus the number of "}" read so far and goes
    negative on an unmatched "}". After a "}" read at depth zero (or
    below), reading the brace that closes a block of the rest of the
    text pushes no rule, and if those blocks are not nested no rule at
    all is pushed for them; without the stray "}" the same closing brace
    pushes the block. So "}a{b}" gives no rule and "a{b}" gives the rule
    "a{b}". *)
Theorem stray_brace_discards_blocks :
  (forall text, braceCount (run init text) = depth text)
  /\ braceCount (run init (str "}")) = -1
  /\ (forall pre rest k,
        depth pre <= 0 -> closing_at rest k = true ->
        let text := pre ++ rbrace :: rest in
        let k' := (length pre + 1 + k)%nat in
        parseCSSRules (take (S k') text) = parseCSSRules (take k' text)
        /\ parseCSSRules (take (S k) rest)
           = parseCSSRules (take k rest)
             ++ [trim (drop (buf_start (take k rest)) (take (S k) rest))])
  /\ (forall pre rest,
        depth pre <= 0 -> flat rest ->
        parseCSSRules (pre ++ rbrace :: rest) = parseCSSRules pre)
  /\ parseCSSRules (str "}a{b}") = []
  /\ parseCSSRules (str "a{b}") = [str "a{b}"].
Proof.
  split; [apply braceCount_init|].
  split; [reflexivity|].
  split; [|split; [apply stray_flat | split; reflexivity]].
  intros pre rest k Hpre Hc text k'. split.
  - apply parse_take_S. by apply stray_closing.
  - by apply parse_take_S_closing.
Qed.

(** C10, as stated for every text, fails: blocks that are nested are not
    discarded after a stray "}", they are cut one level early. "}a{b{c}}"
    gives the rule "}a{b{c}", and after the stray "}" the balanced block
    ".b{x:y}" inside the media block is emitted as a rule. *)
Lemma stray_brace_nested_emits :
  let rest := str "@media print{.a{x:y}.b{x:y}}.c{x:y}" in
  depth rest = 0
  /\ parseCSSRules rest
     = [str "@media print{.a{x:y}.b{x:y}}"; str ".c{x:y}"]
  /\ parseCSSRules (rbrace :: rest)
     = [str "}@media print{.a{x:y}"; str ".b{x:y}"]
  /\ parseCSSRules (str "}a{b{c}}") = [str "}a{b{c}"]
  /\ parseCSSRules (rbrace :: rest) <> []
  /\ parseCSSRules (str "}a{b{c}}") <> [].
Proof. intros rest. repeat split; discriminate. Qed.


(** ** The loops of [handler] *)

Section Aggregation.

Implicit Types cov : list CoverageEntry.
Implicit Types entry : CoverageEntry.

Lemma usedOf_from ranges a :
  fold_left (fun sum range => sum + (r_end range - r_start range)) ranges a
  = a + sumZ (map span ranges).
Proof.
  revert a; induction ranges as [|r ranges IH]; intros a; simpl; [lia|].
  rewrite IH. unfold span. lia.
Qed.

Lemma usedOf_sum ranges : usedOf ranges = sumZ (map span ranges).
Proof. unfold usedOf. by rewrite usedOf_from. Qed.

Lemma entries_fold cov a :
  fold_left entry_step cov a
  = mkAcc (a_totalBytes a + sumZ (map fd_total (map fileDetail cov)))
          (a_usedBytes a + sumZ (map fd_used (map fileDetail cov)))
          (a_files a ++ map fileDetail cov).
Proof.
  revert a; induction cov as [|entry cov IH]; intros a; simpl.
  - destruct a. simpl. by rewrite !Z.add_0_r, app_nil_r.
  - rewrite IH. simpl. rewrite <- app_assoc. simpl. f_equal; lia.
Qed.

Lemma analyze_files cov : files (analyze cov) = map fileDetail cov.
Proof. unfold analyze. by rewrite entries_fold. Qed.

Lemma analyze_totalBytes cov :
  totalBytes (analyze cov) = sumZ (map fd_total (map fileDetail cov)).
Proof. unfold analyze. by rewrite entries_fold. Qed.

Lemma analyze_usedBytes cov :
  usedBytes (analyze cov) = sumZ (map fd_used (map fileDetail cov)).
Proof. unfold analyze. by rewrite entries_fold. Qed.

Lemma analyze_usagePercent cov :
  usagePercent (analyze cov)
  = if totalBytes (analyze cov) >? 0
    then js_mul (js_div (usedBytes (analyze cov)) (totalBytes (analyze cov)))
                (JFin 100)
    else JFin 0.
Proof. reflexivity. Qed.

Lemma totalBytes_nonneg cov : 0 <= totalBytes (analyze cov).
Proof.
  rewrite analyze_totalBytes.
  induction cov as [|entry cov IH]; simpl; [done|].
  unfold jslength. lia.
Qed.

Lemma rules_fold entry rules acc :
  fold_left (rule_step entry) rules acc
  = acc ++ map (fun rule => mkCSSRule (trim (split_head lbrace rule)) false
                                      (jslength rule))
               (List.filter
                  (fun rule => negb (isRuleUsed rule (ce_text entry)
                                                (ce_ranges entry)))
                  rules).
Proof.
  revert acc; induction rules as [|rule rules IH]; intros acc; simpl.
  - by rewrite app_nil_r.
  - rewrite IH. unfold rule_step.
    destruct (negb (isRuleUsed rule _ _)); simpl; [|done].
    by rewrite <- app_assoc.
Qed.

Lemma filter_classify entry rules :
  List.filter (fun c => negb (used c)) (map (classify entry) rules)
  = map (fun rule => mkCSSRule (trim (split_head lbrace rule)) false
                               (jslength rule))
        (List.filter
           (fun rule => negb (isRuleUsed rule (ce_text entry)
                                         (ce_ranges entry)))
           rules).
Proof.
  induction rules as [|rule rules IH]; simpl; [done|].
  destruct (isRuleUsed rule _ _) eqn:Hu; simpl; [done|].
  rewrite IH. unfold classify at 1. by rewrite Hu.
Qed.

Lemma split_head_spec sep s :
  (sep ∉ split_head sep s)
  /\ (split_head sep s = s
      \/ exists rest, s = split_head sep s ++ sep :: rest).
Proof.
  induction s as [|c s [IHn IHs]]; simpl.
  - split; [apply not_elem_of_nil | by left].
  - destruct (N.eqb_spec c sep) as [->|Hne].
    + split; [apply not_elem_of_nil | right; by exists s].
    + split.
      * intros [?|?]%elem_of_cons; [congruence | done].
      * destruct IHs as [-> | [rest Hr]]; [by left | right].
        exists rest. simpl. by rewrite <- Hr.
Qed.

End Aggregation.

(** C5. The sums of the report are exact and the files keep the order of
    the coverage entries: [totalBytes] is the sum of the files' [total],
    [usedBytes] the sum of the files' [used], and the i-th file is the
    one made from the i-th entry. *)
Theorem analyze_sums (cssCoverage : list CoverageEntry) :
  totalBytes (analyze cssCoverage)
  = sumZ (map fd_total (files (analyze cssCoverage)))
  /\ usedBytes (analyze cssCoverage)
     = sumZ (map fd_used (files (analyze cssCoverage)))
  /\ files (analyze cssCoverage) = map fileDetail cssCoverage
  /\ forall i, files (analyze cssCoverage) !! i
               = fileDetail <$> cssCoverage !! i.
Proof.
  rewrite analyze_files, analyze_totalBytes, analyze_usedBytes.
  repeat split. intros i. apply list_lookup_fmap.
Qed.

(** C6. The usage percentage of a report is 0 when [totalBytes] is 0: no
    division takes place and the value is not NaN. Otherwise it is
    [(usedBytes / totalBytes) * 100] as JavaScript computes it on
    doubles: the quotient rounded to the nearest double, times 100,
    rounded again; it is a number, neither NaN nor an infinity. *)
Theorem usagePercent_defined (cssCoverage : list CoverageEntry) :
  let r := analyze cssCoverage in
  (totalBytes r = 0 -> usagePercent r = JFin 0)
  /\ (totalBytes r <> 0 ->
      usagePercent r
      = JFin (round53 (round53 (inject_Z (usedBytes r)
                                / inject_Z (totalBytes r)) * 100))
      /\ usagePercent r = js_mul (js_div (usedBytes r) (totalBytes r)) (JFin 100))
  /\ usagePercent r <> JNaN
  /\ (forall n, usagePercent r <> JInf n).
Proof.
  intros r. subst r. rewrite analyze_usagePercent.
  pose proof (totalBytes_nonneg cssCoverage) as Hpos.
  set (t := totalBytes (analyze cssCoverage)) in *.
  set (u := usedBytes (analyze cssCoverage)).
  unfold js_div.
  destruct (Z.gtb_spec t 0) as [Hgt|Hle], (Z.eqb_spec t 0) as [H0|Hne];
    try lia; unfold js_mul; repeat split; try done; try lia.
Qed.

(** C8. Each rule of the segmentation is classified once, and
    [unusedRules] holds exactly the classifications that are unused, in
    the order of the segmentation; each has the trimmed text before the
    first "{" of the rule as selector, [used = false], and the length of
    the rule's text as [bytes]. *)
Theorem unusedRules_are_the_unused (entry : CoverageEntry) :
  let rules := parseCSSRules (ce_text entry) in
  let classified := map (classify entry) rules in
  length classified = length rules
  /\ unusedRules (fileDetail entry)
     = List.filter (fun c => negb (used c)) classified
  /\ unusedRules (fileDetail entry)
     = map (fun rule => mkCSSRule (trim (split_head lbrace rule)) false
                                  (jslength rule))
           (List.filter
              (fun rule => negb (isRuleUsed rule (ce_text entry)
                                            (ce_ranges entry)))
              rules)
  /\ (forall c, c ∈ unusedRules (fileDetail entry) -> used c = false)
  /\ (forall rule,
        (lbrace ∉ split_head lbrace rule)
        /\ (split_head lbrace rule = rule
            \/ exists rest, rule = split_head lbrace rule ++ lbrace :: rest)).
Proof.
  intros rules classified.
  assert (Hu : unusedRules (fileDetail entry)
               = List.filter (fun c => negb (used c)) classified).
  { unfold classified. rewrite filter_classify. simpl.
    by rewrite rules_fold. }
  split; [apply length_map|].
  split; [exact Hu|].
  split; [rewrite Hu; apply filter_classify|].
  split; [|intros rule; apply split_head_spec].
  intros c. rewrite Hu, list_elem_of_In, List.filter_In.
  intros [_ H]. by apply negb_true_iff in H.
Qed.

(** ** Used bytes against total bytes *)

Section UsedBytes.

Lemma shift_span r x : span (shift r x) = span x.
Proof. unfold shift, span. destruct (_ <=? _); simpl; lia. Qed.

Lemma shift_range_in n r x :
  range_in n r -> range_in n x -> disjoint r x ->
  range_in (n - span r) (shift r x).
Proof.
  unfold shift, range_in, disjoint, span.
  destruct (Z.leb_spec (r_end r) (r_start x)); simpl; lia.
Qed.

Lemma shift_disjoint n r x y :
  range_in n r -> range_in n x -> range_in n y ->
  disjoint r x -> disjoint r y -> disjoint x y ->
  disjoint (shift r x) (shift r y).
Proof.
  unfold shift, range_in, disjoint, span.
  destruct (Z.leb_spec (r_end r) (r_start x)),
           (Z.leb_spec (r_end r) (r_start y)); simpl; lia.
Qed.

Lemma shift_pairwise n r l :
  range_in n r -> Forall (range_in n) l -> Forall (disjoint r) l ->
  pairwise_disjoint l -> pairwise_disjoint (map (shift r) l).
Proof.
  intros Hr Hin Hd. induction l as [|x l IH]; simpl; [done|].
  intros [Hx Hl].
  apply Forall_cons_1 in Hin as [Hxin Hin].
  apply Forall_cons_1 in Hd as [Hxd Hd].
  split; [|by apply IH].
  apply Forall_map, Forall_forall. intros y Hy.
  rewrite Forall_forall in Hin, Hd, Hx.
  apply (shift_disjoint n); auto.
Qed.

(** Ranges that do not overlap and lie in [[0, n]] cover at most [n]
    bytes. *)
Lemma disjoint_sum_le_len m : forall l n,
  length l = m ->
  0 <= n -> Forall (range_in n) l -> pairwise_disjoint l ->
  sumZ (map span l) <= n.
Proof.
  induction m as [|m IH]; intros [|r l] n Hlen Hn Hin Hpd;
    try discriminate Hlen; simpl; [done|].
  apply Forall_cons_1 in Hin as [Hr Hin]. destruct Hpd as [Hd Hpd].
  assert (Hsum : sumZ (map span (map (shift r) l)) = sumZ (map span l)).
  { rewrite map_map. f_equal. apply map_ext. intros x. apply shift_span. }
  assert (Hle : sumZ (map span (map (shift r) l)) <= n - span r).
  { apply IH.
    - rewrite length_map. by injection Hlen.
    - unfold range_in, span in *. lia.
    - apply Forall_map, Forall_forall. intros x Hx.
      rewrite Forall_forall in Hin, Hd.
      apply shift_range_in; auto.
    - by apply (shift_pairwise n). }
  lia.
Qed.

Lemma disjoint_sum_le l n :
  0 <= n -> Forall (range_in n) l -> pairwise_disjoint l ->
  sumZ (map span l) <= n.
Proof. by apply (disjoint_sum_le_len (length l)). Qed.

Lemma sum_span_nonneg l :
  Forall (fun r => r_start r < r_end r) l -> 0 <= sumZ (map span l).
Proof.
  induction 1 as [|r l Hr _ IH]; simpl; [done | unfold span at 1; lia].
Qed.

End UsedBytes.

(** C1, as the code has it. For every coverage entry, [total] is the
    length of the text and [used] is the sum of [end - start] over the
    ranges. When each range has [end > start], [0 <= used]. When the
    ranges moreover lie inside the text and do not overlap one another,
    [used <= total]. *)
Theorem fileDetail_used_le_total (entry : CoverageEntry) :
  fd_total (fileDetail entry) = jslength (ce_text entry)
  /\ fd_used (fileDetail entry) = sumZ (map span (ce_ranges entry))
  /\ (Forall (fun r => r_end r > r_start r) (ce_ranges entry) ->
      0 <= fd_used (fileDetail entry))
  /\ (Forall (range_in (jslength (ce_text entry))) (ce_ranges entry) ->
      pairwise_disjoint (ce_ranges entry) ->
      0 <= fd_used (fileDetail entry) <= fd_total (fileDetail entry)).
Proof.
  simpl. rewrite usedOf_sum.
  split; [done|]. split; [done|]. split.
  - intros Hpos. apply sum_span_nonneg. eapply Forall_impl; [exact Hpos|].
    intros r. simpl. lia.
  - intros Hin Hpd. split.
    + apply sum_span_nonneg. eapply Forall_impl; [exact Hin|].
      intros r. unfold range_in. lia.
    + apply disjoint_sum_le; [unfold jslength; lia | done | done].
Qed.

Lemma fileDetail_used_le_total_witness :
  let entry := mkCoverageEntry (str "https://x/a.css")
                 (str ".a{color:red}.b{color:blue}")
                 [mkRange 14 27; mkRange 0 13] in
  Forall (range_in (jslength (ce_text entry))) (ce_ranges entry)
  /\ pairwise_disjoint (ce_ranges entry)
  /\ fd_total (fileDetail entry) = 27
  /\ fd_used (fileDetail entry) = 26
  /\ 0 <= fd_used (fileDetail entry) <= fd_total (fileDetail entry).
Proof.
  intros entry.
  assert (Hin : Forall (range_in (jslength (ce_text entry))) (ce_ranges entry))
    by (repeat constructor; vm_compute; congruence).
  assert (Hpd : pairwise_disjoint (ce_ranges entry))
    by (repeat constructor; vm_compute; congruence).
  split; [exact Hin|]. split; [exact Hpd|].
  destruct (fileDetail_used_le_total entry) as (Ht & Hu & _ & Hle).
  split; [exact Ht|]. split; [exact Hu|]. exact (Hle Hin Hpd).
Defined.

(** C1, as stated, fails: two ranges of the same three bytes, each with
    [end > start] and inside the text, give [used = 6] for a text of
    length 3. *)
Lemma used_exceeds_total :
  let entry := mkCoverageEntry (str "https://x/a.css") (str "a{}")
                 [mkRange 0 3; mkRange 0 3] in
  Forall (fun r => r_end r > r_start r) (ce_ranges entry)
  /\ fd_total (fileDetail entry) = 3
  /\ fd_used (fileDetail entry) = 6
  /\ ~ (0 <= fd_used (fileDetail entry) <= fd_total (fileDetail entry)).
Proof.
  intros entry. split; [repeat constructor|].
  split; [reflexivity|]. split; [reflexivity|].
  vm_compute. intros [_ H]. by apply H.
Qed.

(** ** The result cache *)

Section Cache.

Variable browse : jsstring -> list CoverageEntry + option jsstring.

Implicit Types c : cache.

Lemma cache_get_put now computedAt k v c :
  cache_get now k (cache_put computedAt k v c)
  = if now - computedAt <? CACHE_TTL then Some v else None.
Proof. unfold cache_get, cache_put. by rewrite lookup_insert_eq. Qed.

Lemma cache_get_put_ne now computedAt k k' v c :
  k' <> k -> cache_get now k' (cache_put computedAt k v c) = cache_get now k' c.
Proof.
  intros Hne. unfold cache_get, cache_put. by rewrite lookup_insert_ne.
Qed.

Lemma body_url_Some req url :
  body_url req = Some url -> req_body req = Some (Some url).
Proof.
  unfold body_url. destruct (req_body req) as [u|]; [by intros -> | done].
Qed.

(** A request for a URL whose entry is fresh is answered from the
    cache, without a browser session. *)
Lemma handler_cached now1 now2 req url res c :
  method req = str "POST" -> body_url req = Some url ->
  startsWith url (str "http") = true ->
  cache_get now1 url c = Some res ->
  handler browse now1 now2 req c = (Json 200 (inl res), c).
Proof.
  intros Hm Hu%body_url_Some Hs Hc. unfold handler.
  rewrite bool_decide_eq_true_2 by done.
  by rewrite Hu, Hs, Hc.
Qed.

(** Otherwise the analysis runs and its result is stored under the
    URL with the time of the store. *)
Lemma handler_computes now1 now2 req url cssCoverage c :
  method req = str "POST" -> body_url req = Some url ->
  startsWith url (str "http") = true ->
  cache_get now1 url c = None ->
  browse url = inl cssCoverage ->
  handler browse now1 now2 req c
  = (Json 200 (inl (analyze cssCoverage)),
     cache_put now2 url (analyze cssCoverage) c).
Proof.
  intros Hm Hu%body_url_Some Hs Hc Hb. unfold handler.
  rewrite bool_decide_eq_true_2 by done.
  by rewrite Hu, Hs, Hc, Hb.
Qed.

(** A second request for the same URL within the hour is answered with
    the stored result. *)
Lemma handler_second_request now1 now2 now3 now4 req url cssCoverage c :
  method req = str "POST" -> body_url req = Some url ->
  startsWith url (str "http") = true ->
  cache_get now1 url c = None ->
  browse url = inl cssCoverage ->
  now3 - now2 < CACHE_TTL ->
  let c' := snd (handler browse now1 now2 req c) in
  handler browse now3 now4 req c' = (Json 200 (inl (analyze cssCoverage)), c').
Proof.
  intros Hm Hu Hs Hc Hb Hfresh c'. subst c'.
  rewrite (handler_computes _ _ _ _ _ _ Hm Hu Hs Hc Hb). simpl.
  apply (handler_cached _ _ _ url); try done.
  rewrite cache_get_put.
  by destruct (Z.ltb_spec (now3 - now2) CACHE_TTL); [|lia].
Qed.

End Cache.

(** C7. After [put(k, v)] at time [computedAt], [get(k)] at time [now]
    gives [v] as long as [now - computedAt < TTL] and nothing once
    [now - computedAt >= TTL], the entry staying in the map; TTL is one
    hour in milliseconds. [put] overwrites an earlier entry of the same
    key, and leaves the other keys as they are. *)
Theorem cache_round_trip (k : jsstring) (v : CSSUsageResult) (c : cache)
    (computedAt now : Z) :
  CACHE_TTL = 3600000
  /\ (now - computedAt < CACHE_TTL ->
      cache_get now k (cache_put computedAt k v c) = Some v)
  /\ (now - computedAt >= CACHE_TTL ->
      cache_get now k (cache_put computedAt k v c) = None)
  /\ cache_put computedAt k v c !! k = Some (mkCacheEntry v computedAt)
  /\ (forall v0 t0,
        cache_put computedAt k v (cache_put t0 k v0 c)
        = cache_put computedAt k v c)
  /\ (forall k', k' <> k ->
        cache_put computedAt k v c !! k' = c !! k').
Proof.
  split; [reflexivity|].
  split; [|split; [|split; [|split]]].
  - intros H. rewrite cache_get_put.
    by destruct (Z.ltb_spec (now - computedAt) CACHE_TTL); [|lia].
  - intros H. rewrite cache_get_put.
    by destruct (Z.ltb_spec (now - computedAt) CACHE_TTL); [lia|].
  - apply lookup_insert_eq.
  - intros v0 t0. apply insert_insert_eq.
  - intros k' Hne. by apply lookup_insert_ne.
Qed.

(** ** Further examples *)

(** Two rules with the same text share the first occurrence: coverage of
    the second copy alone leaves both unused, and coverage of the first
    copy alone makes both used. *)
Example duplicate_rule_text :
  let text := str ".a{}.b{}.a{}" in
  parseCSSRules text = [str ".a{}"; str ".b{}"; str ".a{}"]
  /\ ruleStarts text = [0; 4; 8]%nat
  /\ indexOf text (str ".a{}") = 0
  /\ unusedRules (fileDetail (mkCoverageEntry [] text [mkRange 8 12]))
     = [mkCSSRule (str ".a") false 4; mkCSSRule (str ".b") false 4;
        mkCSSRule (str ".a") false 4]
  /\ unusedRules (fileDetail (mkCoverageEntry [] text [mkRange 0 4]))
     = [mkCSSRule (str ".b") false 4].
Proof. repeat split. Qed.

(** A nested block after a stray "}" is cut one brace early. *)
Example stray_brace_nested :
  parseCSSRules (str "}a{b{c}}") = [str "}a{b{c}"]
  /\ parseCSSRules (str "a{b{c}}") = [str "a{b{c}}"].
Proof. split; reflexivity. Qed.

Example scenario2 :
  analyze [mkCoverageEntry [] [] []]
  = mkCSSUsageResult 0 0 (JFin 0)
      [mkCSSFileDetail (str "inline <style>") 0 0 []].
Proof. reflexivity. Qed.

Example handler_rejects_get c :
  handler (fun _ => inl []) 0 0
          (mkRequest (str "GET") (Some (Some (str "http://x")))) c
  = (Json 405 (inr (str "Method Not Allowed")), c).
Proof. reflexivity. Qed.

(** * Further properties of the code *)

(** ** The shape of the rules *)

Section RuleShape.

Implicit Types s text rule : jsstring.

Lemma trimStart_ws_prefix s :
  exists pre, s = pre ++ trimStart s /\ Forall (fun c => is_ws c = true) pre.
Proof.
  induction s as [|c s (pre & IH & Hpre)]; simpl.
  - by exists [].
  - destruct (is_ws c) eqn:Hc.
    + exists (c :: pre). split; [simpl; by rewrite <- IH | by constructor].
    + by exists [].
Qed.

Lemma trimStart_head s c : head (trimStart s) = Some c -> is_ws c = false.
Proof.
  induction s as [|a s IH]; simpl; [done|].
  destruct (is_ws a) eqn:Ha; [done|]. simpl. by intros [= <-].
Qed.

Lemma trimStart_id s :
  (forall c, head s = Some c -> is_ws c = false) -> trimStart s = s.
Proof.
  destruct s as [|a s]; simpl; [done|]. intros H. by rewrite (H a).
Qed.

Lemma trimStart_last s c :
  last s = Some c -> is_ws c = false -> last (trimStart s) = Some c.
Proof.
  intros Hl Hc. induction s as [|a s IH]; simpl; [done|].
  destruct (is_ws a) eqn:Ha; [|done].
  destruct s as [|b s]; [simpl in Hl; congruence|].
  apply IH. by rewrite last_cons_cons in Hl.
Qed.

Lemma head_rev s : head (rev s) = last s.
Proof.
  induction s as [|c s _] using rev_ind; [done|].
  by rewrite rev_app_distr, last_snoc.
Qed.

Lemma trimEnd_id s c : last s = Some c -> is_ws c = false -> trimEnd s = s.
Proof.
  intros Hl Hc. unfold trimEnd. rewrite trimStart_id, rev_involutive; [done|].
  intros a Ha. rewrite head_rev in Ha. congruence.
Qed.

(** When [s] ends with a character that is not white space, [trim] only
    strips the head. *)
Lemma trim_trimStart s c :
  last s = Some c -> is_ws c = false -> trim s = trimStart s.
Proof.
  intros Hl Hc. unfold trim. apply (trimEnd_id _ c); [|done].
  by apply trimStart_last.
Qed.

Lemma delta_ws c : is_ws c = true -> delta c = 0.
Proof.
  intros Hc. unfold delta.
  destruct (N.eqb_spec c lbrace) as [->|_]; [discriminate Hc|].
  by destruct (N.eqb_spec c rbrace) as [->|_]; [discriminate Hc|].
Qed.

Lemma depth_ws s : Forall (fun c => is_ws c = true) s -> depth s = 0.
Proof.
  induction 1 as [|c s Hc _ IH]; simpl; [done|].
  rewrite (delta_ws _ Hc). lia.
Qed.

Lemma depth_no_lbrace s : lbrace ∉ s -> depth s <= 0.
Proof.
  induction s as [|c s IH]; simpl; [done|].
  intros [Hc Hs]%not_elem_of_cons. specialize (IH Hs).
  unfold delta. destruct (N.eqb_spec c lbrace) as [->|_]; [done|].
  destruct (c =? rbrace)%N; lia.
Qed.

Lemma depth_buf_start text : depth (take (buf_start text) text) = 0.
Proof.
  unfold buf_start. destruct (last (cuts text)) as [k|] eqn:Hl; [|done].
  apply last_Some_elem_of, cuts_closing in Hl.
  unfold closing_at in Hl. apply andb_true_iff in Hl as [_ Hd].
  by apply Z.eqb_eq.
Qed.

Lemma rules_are_segments text :
  Forall rule_of_segment (parseCSSRules text).
Proof.
  unfold parseCSSRules.
  induction text as [|c text IH] using rev_ind; [constructor|].
  destruct (closing_at (text ++ [c]) (length text)) eqn:Hc.
  - rewrite (step_closing _ _ Hc). simpl.
    apply Forall_app. split; [done|]. constructor; [|constructor].
    rewrite closing_at_last in Hc.
    apply andb_true_iff in Hc as [->%N.eqb_eq Hd%Z.eqb_eq].
    exists (currentRule (run init text) ++ [rbrace]).
    split; [done|]. split; [apply last_snoc|].
    rewrite currentRule_run, depth_snoc, delta_rbrace.
    pose proof (depth_buf_start text) as H0.
    pose proof (depth_app (take (buf_start text) text)
                          (drop (buf_start text) text)) as Happ.
    rewrite take_drop in Happ. lia.
  - by destruct (step_not_closing _ _ Hc) as [-> _].
Qed.

End RuleShape.

(** X1. Every rule that the segmenter emits ends with "}", contains a
    "{", has as many "{" as "}", and has no white space at either end
    (trimming it again changes nothing). *)
Theorem parsed_rule_shape (text rule : jsstring) :
  rule ∈ parseCSSRules text ->
  last rule = Some rbrace
  /\ lbrace ∈ rule
  /\ depth rule = 0
  /\ (forall c, head rule = Some c -> is_ws c = false)
  /\ trim rule = rule.
Proof.
  intros Hin.
  pose proof (rules_are_segments text) as Hall.
  rewrite Forall_forall in Hall.
  destruct (Hall rule Hin) as (seg & -> & Hlast & Hdepth).
  assert (Hws : is_ws rbrace = false) by reflexivity.
  rewrite (trim_trimStart _ _ Hlast Hws).
  pose proof (trimStart_last _ _ Hlast Hws) as Hl.
  destruct (trimStart_ws_prefix seg) as (pre & Hseg & Hpre).
  assert (Hd : depth (trimStart seg) = 0).
  { rewrite Hseg, depth_app, (depth_ws _ Hpre) in Hdepth. lia. }
  assert (Hhead : forall c, head (trimStart seg) = Some c -> is_ws c = false)
    by apply trimStart_head.
  split; [done|]. split; [|split; [done|split; [done|]]].
  - destruct (decide (lbrace ∈ trimStart seg)) as [|Hno]; [done|exfalso].
    apply last_Some in Hl as [body Hbody].
    rewrite Hbody in Hd, Hno. rewrite depth_snoc, delta_rbrace in Hd.
    apply not_elem_of_app in Hno as [Hno _].
    apply depth_no_lbrace in Hno. lia.
  - rewrite (trim_trimStart _ _ Hl Hws). by apply trimStart_id.
Qed.

Lemma parsed_rule_shape_witness :
  let text := str "@media print { .a { color: red } }  .b{}" in
  let rule := str "@media print { .a { color: red } }" in
  rule ∈ parseCSSRules text
  /\ last rule = Some rbrace
  /\ lbrace ∈ rule
  /\ depth rule = 0
  /\ (forall c, head rule = Some c -> is_ws c = false)
  /\ trim rule = rule.
Proof.
  intros text rule.
  assert (H : rule ∈ parseCSSRules text)
    by (apply list_elem_of_In; vm_compute; left; reflexivity).
  split; [exact H|].
  exact (parsed_rule_shape text rule H).
Defined.

(** ** Segmenting a text piece by piece *)

Section Composition.

Implicit Types a b text : jsstring.

Lemma step_frame r st c :
  step (mkState (r ++ rules st) (currentRule st) (braceCount st)) c
  = mkState (r ++ rules (step st c)) (currentRule (step st c))
            (braceCount (step st c)).
Proof.
  unfold step. simpl.
  destruct (c =? rbrace)%N; [|done].
  destruct (_ =? 0); simpl; [|done]. by rewrite app_assoc.
Qed.

Lemma run_frame r b : forall st,
  run (mkState (r ++ rules st) (currentRule st) (braceCount st)) b
  = mkState (r ++ rules (run st b)) (currentRule (run st b))
            (braceCount (run st b)).
Proof.
  induction b as [|c b IH]; intros st; [done|].
  simpl. rewrite step_frame. apply IH.
Qed.

Lemma parse_app_closed a b :
  run init a = mkState (parseCSSRules a) [] 0 ->
  parseCSSRules (a ++ b) = parseCSSRules a ++ parseCSSRules b.
Proof.
  intros Ha. unfold parseCSSRules at 1. unfold run.
  rewrite fold_left_app. fold (run init a). rewrite Ha.
  pose proof (run_frame (parseCSSRules a) b init) as H.
  simpl in H. rewrite app_nil_r in H. unfold run in H. by rewrite H.
Qed.

Lemma run_closed a :
  a = [] \/ closing_at a (length a - 1) = true ->
  run init a = mkState (parseCSSRules a) [] 0.
Proof.
  intros [->|Hc]; [done|].
  destruct a as [|c a _] using rev_ind; [done|].
  rewrite length_app in Hc. simpl in Hc.
  replace (length a + 1 - 1)%nat with (length a) in Hc by lia.
  unfold parseCSSRules. by rewrite (step_closing _ _ Hc).
Qed.

Lemma depth_brace_free s : brace_free s -> depth s = 0.
Proof.
  intros [Hl Hr]. induction s as [|c s IH]; simpl; [done|].
  apply not_elem_of_cons in Hl as [Hcl Hl].
  apply not_elem_of_cons in Hr as [Hcr Hr].
  rewrite (IH Hl Hr). unfold delta.
  destruct (N.eqb_spec c lbrace) as [->|_]; [done|].
  by destruct (N.eqb_spec c rbrace) as [->|_].
Qed.

Lemma currentRule_no_rbrace text :
  rbrace ∉ text -> currentRule (run init text) = text.
Proof.
  induction text as [|c text IH] using rev_ind; [done|].
  intros [Ht Hc]%not_elem_of_app.
  assert (Hn : closing_at (text ++ [c]) (length text) = false).
  { rewrite closing_at_last.
    destruct (N.eqb_spec c rbrace) as [->|_]; [|done].
    destruct Hc. by left. }
  destruct (step_not_closing _ _ Hn) as [_ ->]. by rewrite IH.
Qed.

Lemma flatRule_closing sb :
  brace_free (fst sb) -> brace_free (snd sb) ->
  closing_at (flatRule sb) (length (flatRule sb) - 1) = true
  /\ parseCSSRules (flatRule sb) = [trim (flatRule sb)].
Proof.
  intros Hs Hb. destruct sb as [sel body]. unfold flatRule. simpl in *.
  set (pre := sel ++ lbrace :: body).
  assert (Heq : sel ++ lbrace :: body ++ [rbrace] = pre ++ [rbrace])
    by (unfold pre; by rewrite <- app_assoc).
  rewrite Heq.
  assert (Hc : closing_at (pre ++ [rbrace]) (length pre) = true).
  { rewrite closing_at_last. unfold pre.
    rewrite depth_app. simpl.
    rewrite (depth_brace_free _ Hs), (depth_brace_free _ Hb). done. }
  split.
  - rewrite length_app. simpl.
    by replace (length pre + 1 - 1)%nat with (length pre) by lia.
  - assert (Hno : rbrace ∉ pre).
    { unfold pre. destruct Hs as [_ Hs], Hb as [_ Hb].
      intros [H|H]%elem_of_app; [done|].
      apply elem_of_cons in H as [H|H]; [discriminate H | done]. }
    unfold parseCSSRules. rewrite (step_closing _ _ Hc). simpl.
    fold (parseCSSRules pre).
    by rewrite (parse_no_rbrace _ Hno), (currentRule_no_rbrace _ Hno).
Qed.

End Composition.

(** X2. Segmenting composes at a closing brace: when [a] is empty or its
    last character is a "}" that closes a block, the rules of [a ++ b]
    are the rules of [a] followed by the rules of [b]. *)
Theorem parseCSSRules_app (a b : jsstring) :
  a = [] \/ closing_at a (length a - 1) = true ->
  parseCSSRules (a ++ b) = parseCSSRules a ++ parseCSSRules b.
Proof. intros H. by apply parse_app_closed, run_closed. Qed.

Lemma parseCSSRules_app_witness :
  let a := str ".a{color:red}" in
  let b := str " .b{color:blue} .c{" in
  (a = [] \/ closing_at a (length a - 1) = true)
  /\ parseCSSRules (a ++ b) = parseCSSRules a ++ parseCSSRules b.
Proof.
  intros a b.
  assert (H : a = [] \/ closing_at a (length a - 1) = true)
    by (right; reflexivity).
  split; [exact H|].
  exact (parseCSSRules_app a b H).
Defined.

(** X3. A stylesheet that is a sequence of rules [sel{body}] with no
    brace inside [sel] or [body] is segmented into exactly these rules,
    trimmed, in order. *)
Theorem parseCSSRules_flat (l : list (jsstring * jsstring)) :
  Forall (fun sb => brace_free (fst sb) /\ brace_free (snd sb)) l ->
  parseCSSRules (concat (map flatRule l))
  = map (fun sb => trim (flatRule sb)) l.
Proof.
  induction 1 as [|sb l [Hs Hb] _ IH]; [done|]. simpl.
  destruct (flatRule_closing sb Hs Hb) as [Hc Hp].
  rewrite parse_app_closed by (apply run_closed; by right).
  by rewrite Hp, IH.
Qed.

Lemma parseCSSRules_flat_witness :
  let l := [(str " .a ", str "color:red"); (str " .b", str "")] in
  Forall (fun sb => brace_free (fst sb) /\ brace_free (snd sb)) l
  /\ parseCSSRules (str " .a {color:red} .b{}")
     = [str ".a {color:red}"; str ".b{}"].
Proof.
  intros l.
  assert (H : Forall (fun sb => brace_free (fst sb) /\ brace_free (snd sb)) l).
  { repeat constructor; vm_compute; intros Hin;
      apply list_elem_of_In in Hin; simpl in Hin; intuition discriminate. }
  split; [exact H|].
  exact (parseCSSRules_flat l H).
Defined.

(** ** Sizes, and how the report depends on the ranges *)

Section FileFacts.

Implicit Types text rule : jsstring.
Implicit Types ranges : list Range.
Implicit Types entry : CoverageEntry.

Lemma trim_length s : jslength (trim s) <= jslength s.
Proof.
  destruct (trim_substring s) as (pre & post & H). unfold jslength.
  rewrite H at 2. rewrite !length_app. lia.
Qed.

Lemma sumZ_app l1 l2 : sumZ (l1 ++ l2) = sumZ l1 + sumZ l2.
Proof. induction l1 as [|x l1 IH]; simpl; [done | rewrite IH; lia]. Qed.

Lemma jslength_app s t : jslength (s ++ t) = jslength s + jslength t.
Proof. unfold jslength. rewrite length_app. lia. Qed.

Lemma rules_size text :
  sumZ (map jslength (rules (run init text)))
  + jslength (currentRule (run init text)) <= jslength text.
Proof.
  induction text as [|c text IH] using rev_ind; [done|].
  rewrite jslength_app. change (jslength [c]) with 1.
  destruct (closing_at (text ++ [c]) (length text)) eqn:Hc.
  - rewrite (step_closing _ _ Hc). simpl.
    rewrite map_app, sumZ_app. simpl.
    pose proof (trim_length (currentRule (run init text) ++ [c])) as Ht.
    rewrite jslength_app in Ht. change (jslength [c]) with 1 in Ht.
    change (jslength []) with 0. lia.
  - destruct (step_not_closing _ _ Hc) as [-> ->].
    rewrite jslength_app. change (jslength [c]) with 1. lia.
Qed.

Lemma sumZ_filter_le {A} (f : A -> Z) (p : A -> bool) (l : list A) :
  (forall x, 0 <= f x) ->
  0 <= sumZ (map f (List.filter p l)) <= sumZ (map f l).
Proof.
  intros Hf. induction l as [|x l IH]; simpl; [done|].
  specialize (Hf x). destruct (p x); simpl; lia.
Qed.

Lemma unusedRules_fileDetail entry :
  unusedRules (fileDetail entry)
  = map (fun rule => mkCSSRule (trim (split_head lbrace rule)) false
                               (jslength rule))
        (List.filter
           (fun rule => negb (isRuleUsed rule (ce_text entry)
                                         (ce_ranges entry)))
           (parseCSSRules (ce_text entry))).
Proof. simpl. by rewrite rules_fold. Qed.

Lemma sumZ_perm l l' : l ≡ₚ l' -> sumZ l = sumZ l'.
Proof. induction 1; simpl; lia. Qed.

Lemma existsb_perm {A} (f : A -> bool) l l' :
  l ≡ₚ l' -> existsb f l = existsb f l'.
Proof.
  induction 1 as [|x l l' _ IH|x y l|l l' l'' _ IH1 _ IH2]; simpl.
  - done.
  - by rewrite IH.
  - by destruct (f x), (f y).
  - by rewrite IH1.
Qed.

Lemma isRuleUsed_perm rule text ranges ranges' :
  ranges ≡ₚ ranges' ->
  isRuleUsed rule text ranges = isRuleUsed rule text ranges'.
Proof.
  intros H. unfold isRuleUsed. by rewrite (existsb_perm _ _ _ H).
Qed.

Lemma isRuleUsed_mono rule text ranges ranges' :
  (forall r, r ∈ ranges -> r ∈ ranges') ->
  isRuleUsed rule text ranges = true -> isRuleUsed rule text ranges' = true.
Proof.
  intros Hsub. unfold isRuleUsed. destruct (_ =? -1); [done|].
  rewrite !existsb_exists. intros (r & Hr & H). exists r. split; [|done].
  by apply list_elem_of_In, Hsub, list_elem_of_In.
Qed.

Lemma isRuleUsed_nil rule text : isRuleUsed rule text [] = false.
Proof. unfold isRuleUsed. by destruct (_ =? -1). Qed.

(** A range over the whole text contains every rule cut from it. *)
Lemma isRuleUsed_covered rule text ranges r :
  rule ∈ parseCSSRules text ->
  r ∈ ranges -> r_start r <= 0 -> jslength text <= r_end r ->
  isRuleUsed rule text ranges = true.
Proof.
  intros (pre & post & ->)%parsed_rule_substring Hr Hs He.
  destruct (indexOf_substring pre rule post) as (i & _ & Hfirst).
  apply (isRuleUsed_at _ _ _ _ Hfirst). exists r. split; [done|].
  destruct Hfirst as [(pre' & post' & Heq & Hlen) _].
  unfold span_inside, jslength in *. split; [lia|].
  rewrite Heq in He. rewrite !length_app in He. lia.
Qed.

Lemma filter_nil_forall {A} (p : A -> bool) (l : list A) :
  (forall x, x ∈ l -> p x = false) -> List.filter p l = [].
Proof.
  induction l as [|x l IH]; intros H; simpl; [done|].
  rewrite (H x) by by left. apply IH. intros y Hy. apply H. by right.
Qed.

Lemma filter_all {A} (p : A -> bool) (l : list A) :
  (forall x, p x = true) -> List.filter p l = l.
Proof.
  intros H. induction l as [|x l IH]; simpl; [done|]. by rewrite H, IH.
Qed.

End FileFacts.

(** X4. The rules of a text do not add up to more characters than the
    text has, and the bytes of the unused rules listed for a file do not
    exceed the file's [total]. *)
Theorem unused_bytes_le_total (entry : CoverageEntry) :
  sumZ (map jslength (parseCSSRules (ce_text entry)))
  <= jslength (ce_text entry)
  /\ 0 <= sumZ (map bytes (unusedRules (fileDetail entry)))
     <= fd_total (fileDetail entry).
Proof.
  pose proof (rules_size (ce_text entry)) as Hsize.
  fold (parseCSSRules (ce_text entry)) in Hsize.
  assert (Hbuf : 0 <= jslength (currentRule (run init (ce_text entry))))
    by (unfold jslength; lia).
  split; [lia|].
  rewrite unusedRules_fileDetail, map_map. simpl.
  pose proof (sumZ_filter_le jslength
    (fun rule => negb (isRuleUsed rule (ce_text entry) (ce_ranges entry)))
    (parseCSSRules (ce_text entry))) as Hle.
  destruct Hle as [H0 Hle]; [intros x; unfold jslength; lia|].
  split; [exact H0|]. etransitivity; [exact Hle | lia].
Qed.

(** X5. The report of a file does not depend on the order of its
    coverage ranges. *)
Theorem fileDetail_permutation (url text : jsstring)
    (ranges ranges' : list Range) :
  ranges ≡ₚ ranges' ->
  fileDetail (mkCoverageEntry url text ranges)
  = fileDetail (mkCoverageEntry url text ranges').
Proof.
  intros H. unfold fileDetail. simpl. f_equal.
  - rewrite !usedOf_sum. apply sumZ_perm. by apply Permutation_map.
  - rewrite !rules_fold. simpl. f_equal.
    apply List.filter_ext. intros rule. by rewrite (isRuleUsed_perm _ _ _ _ H).
Qed.

Lemma fileDetail_permutation_witness :
  let text := str ".a{color:red}.b{color:blue}" in
  [mkRange 0 13; mkRange 20 27] ≡ₚ [mkRange 20 27; mkRange 0 13]
  /\ fileDetail (mkCoverageEntry [] text [mkRange 0 13; mkRange 20 27])
     = fileDetail (mkCoverageEntry [] text [mkRange 20 27; mkRange 0 13]).
Proof.
  intros text.
  assert (H : [mkRange 0 13; mkRange 20 27] ≡ₚ [mkRange 20 27; mkRange 0 13])
    by apply perm_swap.
  split; [exact H|].
  exact (fileDetail_permutation [] text _ _ H).
Defined.

(** X6. More coverage never lists more unused rules: when every range of
    [ranges] is also in [ranges'], the unused rules under [ranges'] are a
    sublist of the unused rules under [ranges]. *)
Theorem unusedRules_antitone (url text : jsstring)
    (ranges ranges' : list Range) :
  (forall r, r ∈ ranges -> r ∈ ranges') ->
  sublist (unusedRules (fileDetail (mkCoverageEntry url text ranges')))
          (unusedRules (fileDetail (mkCoverageEntry url text ranges))).
Proof.
  intros Hsub. rewrite !unusedRules_fileDetail. simpl.
  induction (parseCSSRules text) as [|rule rules IH]; simpl; [constructor|].
  destruct (isRuleUsed rule text ranges) eqn:Hu; simpl.
  - by rewrite (isRuleUsed_mono _ _ _ _ Hsub Hu).
  - destruct (isRuleUsed rule text ranges'); simpl.
    + by apply sublist_cons.
    + by apply sublist_skip.
Qed.

Lemma unusedRules_antitone_witness :
  let text := str ".a{color:red}.b{color:blue}" in
  (forall r, r ∈ [mkRange 0 13] -> r ∈ [mkRange 13 27; mkRange 0 13])
  /\ sublist
       (unusedRules (fileDetail (mkCoverageEntry [] text
                                   [mkRange 13 27; mkRange 0 13])))
       (unusedRules (fileDetail (mkCoverageEntry [] text [mkRange 0 13]))).
Proof.
  intros text.
  assert (H : forall r, r ∈ [mkRange 0 13] -> r ∈ [mkRange 13 27; mkRange 0 13]).
  { intros r Hr. apply list_elem_of_singleton in Hr as ->. right. left. }
  split; [exact H|].
  exact (unusedRules_antitone [] text _ _ H).
Defined.

(** X7. A file with no coverage range has [used = 0] and lists every
    rule of its text as unused, in order. *)
Theorem fileDetail_no_ranges (url text : jsstring) :
  let d := fileDetail (mkCoverageEntry url text []) in
  fd_used d = 0
  /\ unusedRules d
     = map (fun rule => mkCSSRule (trim (split_head lbrace rule)) false
                                  (jslength rule))
           (parseCSSRules text)
  /\ length (unusedRules d) = length (parseCSSRules text).
Proof.
  intros d. subst d. rewrite unusedRules_fileDetail. simpl.
  rewrite filter_all by (intros rule; by rewrite isRuleUsed_nil).
  split; [done|]. split; [done|]. by rewrite length_map.
Qed.

(** X8. A file with a range that spans its whole text lists no unused
    rule. *)
Theorem fileDetail_fully_covered (entry : CoverageEntry) (r : Range) :
  r ∈ ce_ranges entry ->
  r_start r <= 0 ->
  jslength (ce_text entry) <= r_end r ->
  unusedRules (fileDetail entry) = [].
Proof.
  intros Hr Hs He. rewrite unusedRules_fileDetail.
  rewrite filter_nil_forall; [done|].
  intros rule Hrule. by rewrite (isRuleUsed_covered _ _ _ r).
Qed.

Lemma fileDetail_fully_covered_witness :
  let entry := mkCoverageEntry [] (str ".a{color:red} .b{ color: blue }")
                 [mkRange 3 5; mkRange 0 31] in
  mkRange 0 31 ∈ ce_ranges entry
  /\ jslength (ce_text entry) = 31
  /\ unusedRules (fileDetail entry) = [].
Proof.
  intros entry.
  assert (H : mkRange 0 31 ∈ ce_ranges entry) by (right; left).
  split; [exact H|]. split; [reflexivity|].
  refine (fileDetail_fully_covered entry (mkRange 0 31) H _ _);
    vm_compute; congruence.
Defined.

(** ** The report as a whole *)

Section ReportFacts.

Implicit Types cov : list CoverageEntry.

Lemma fileDetail_bounds entry :
  ranges_ok entry -> 0 <= fd_used (fileDetail entry) <= fd_total (fileDetail entry).
Proof.
  intros [Hin Hpd]. simpl. rewrite usedOf_sum. split.
  - apply sum_span_nonneg. eapply Forall_impl; [exact Hin|].
    intros r. unfold range_in. lia.
  - apply disjoint_sum_le; [unfold jslength; lia | done | done].
Qed.

Lemma analyze_bounds cov :
  Forall ranges_ok cov ->
  0 <= usedBytes (analyze cov) <= totalBytes (analyze cov).
Proof.
  rewrite analyze_usedBytes, analyze_totalBytes.
  induction 1 as [|entry cov He _ IH]; [done|].
  pose proof (fileDetail_bounds entry He).
  cbn [map sumZ foldr]. fold (sumZ (map fd_used (map fileDetail cov))).
  fold (sumZ (map fd_total (map fileDetail cov))). lia.
Qed.

Lemma percent_bounds (u t : Z) :
  0 <= u <= t -> 0 < t ->
  (0 <= round53 (round53 (inject_Z u / inject_Z t) * 100) <= 100)%Q.
Proof.
  intros Hu Ht.
  assert (H1 : (0 <= inject_Z u / inject_Z t <= 1)%Q).
  { destruct t as [|p|p]; try lia.
    unfold Qle, Qdiv, Qmult, Qinv, inject_Z. simpl. nia. }
  apply (round53_bounds _ 1 (2 ^ 52)) in H1; [|reflexivity].
  apply (round53_bounds _ 100 (100 * 2 ^ 46)); [|reflexivity].
  destruct H1 as [H0 H1]. split.
  - apply Qmult_le_0_compat; [done | discriminate].
  - apply (Qmult_le_compat_r _ _ 100) in H1; [|discriminate].
    by rewrite Qmult_1_l in H1.
Qed.

End ReportFacts.

(** X9. Analysing two lists of coverage entries one after the other
    adds up: the totals of [a ++ b] are the sums of the totals of [a] and
    of [b], and its files are those of [a] followed by those of [b]. *)
Theorem analyze_app (a b : list CoverageEntry) :
  totalBytes (analyze (a ++ b))
  = totalBytes (analyze a) + totalBytes (analyze b)
  /\ usedBytes (analyze (a ++ b))
     = usedBytes (analyze a) + usedBytes (analyze b)
  /\ files (analyze (a ++ b)) = files (analyze a) ++ files (analyze b).
Proof.
  rewrite !analyze_totalBytes, !analyze_usedBytes, !analyze_files.
  by rewrite !map_app, !sumZ_app.
Qed.

(** X10. When the ranges of every entry are not empty, lie inside the
    entry's text and do not overlap, the report has
    [0 <= usedBytes <= totalBytes] and a usage percentage between 0 and
    100. *)
Theorem analyze_percent_bounds (cssCoverage : list CoverageEntry) :
  Forall ranges_ok cssCoverage ->
  0 <= usedBytes (analyze cssCoverage) <= totalBytes (analyze cssCoverage)
  /\ exists q, usagePercent (analyze cssCoverage) = JFin q
               /\ (0 <= q <= 100)%Q.
Proof.
  intros Hok. pose proof (analyze_bounds _ Hok) as Hb.
  split; [done|]. rewrite analyze_usagePercent.
  destruct (Z.gtb_spec (totalBytes (analyze cssCoverage)) 0) as [Hgt|Hle].
  - unfold js_div.
    destruct (Z.eqb_spec (totalBytes (analyze cssCoverage)) 0); [lia|].
    eexists. split; [reflexivity|]. by apply percent_bounds.
  - exists 0%Q. split; [done|]. split; discriminate.
Qed.

Lemma analyze_percent_bounds_witness :
  let cov := [mkCoverageEntry [] (str ".a{color:red}.b{color:blue}")
                [mkRange 13 27];
              mkCoverageEntry (str "https://x/b.css") (str ".c{}") []] in
  Forall ranges_ok cov
  /\ totalBytes (analyze cov) = 31
  /\ 0 <= usedBytes (analyze cov) <= totalBytes (analyze cov)
  /\ exists q, usagePercent (analyze cov) = JFin q /\ (0 <= q <= 100)%Q.
Proof.
  intros cov.
  assert (H : Forall ranges_ok cov).
  { repeat constructor; vm_compute; congruence. }
  split; [exact H|]. split; [reflexivity|].
  exact (analyze_percent_bounds cov H).
Defined.

(** ** The page: the sheet and the percentage of a file *)

Section PageFacts.

Variable toFixed2 : jsnum -> jsstring.

Lemma fileRows_length file : length (fileRows toFixed2 file) = rowsOf file.
Proof.
  unfold fileRows, rowsOf. destruct (unusedRules file) as [|rule rules].
  - done.
  - rewrite length_map. simpl. lia.
Qed.

Lemma fileRows_row file row :
  row ∈ fileRows toFixed2 file ->
  x_fileUrl row = fd_url file
  /\ x_totalBytes row = fd_total file
  /\ x_usedBytes row = fd_used file
  /\ x_usagePercentage row = toFixed2 (fileUsage file) ++ str "%"
  /\ (x_unusedSelector row = None /\ x_unusedBytes row = None
      /\ unusedRules file = []
      \/ exists rule, rule ∈ unusedRules file
           /\ x_unusedSelector row = Some (selector rule)
           /\ x_unusedBytes row = Some (bytes rule)).
Proof.
  unfold fileRows. destruct (unusedRules file) as [|rule rules] eqn:Hu.
  - intros ->%list_elem_of_singleton. simpl. repeat split. by left.
  - rewrite list_elem_of_In, in_map_iff.
    intros (x & <- & Hx%list_elem_of_In). simpl. repeat split.
    right. by exists x.
Qed.

Lemma flat_map_rows_length fs :
  length (flat_map (fileRows toFixed2) fs) = sum_list (map rowsOf fs).
Proof.
  induction fs as [|file fs IH]; simpl; [done|].
  by rewrite length_app, fileRows_length, IH.
Qed.

Lemma lookup_map {A B} (f : A -> B) (l : list A) j x :
  l !! j = Some x -> map f l !! j = Some (f x).
Proof.
  revert j; induction l as [|a l IH]; intros [|j]; simpl; try done.
  - by intros [= ->].
  - apply IH.
Qed.

(** The rows of one file, by position. *)
Lemma fileRows_lookup file :
  (unusedRules file = [] ->
   fileRows toFixed2 file !! 0%nat
   = Some (mkExcelRow (fd_url file) (fd_total file) (fd_used file)
             (toFixed2 (fileUsage file) ++ str "%") None None))
  /\ (forall j rule, unusedRules file !! j = Some rule ->
       fileRows toFixed2 file !! j
       = Some (mkExcelRow (fd_url file) (fd_total file) (fd_used file)
                 (toFixed2 (fileUsage file) ++ str "%")
                 (Some (selector rule)) (Some (bytes rule)))).
Proof.
  unfold fileRows. destruct (unusedRules file) as [|r rs] eqn:Hu.
  - split; [done|]. by intros j rule.
  - split; [done|]. intros j rule Hj.
    by rewrite (lookup_map _ _ _ _ Hj).
Qed.

End PageFacts.

(** X11. The exported sheet has one row for each unused rule of a file
    and one row for a file without unused rules, file after file in the
    order of the result, so every file of the result is exported. The
    rows of a file start after the rows of the files before it: a file
    without unused rules has its one row there, with no selector and no
    size; the j-th unused rule of a file has its row j places further,
    with its selector and size. Each row carries the URL, total and used
    bytes and the percentage of its file. *)
Theorem excelData_rows (toFixed2 : jsnum -> jsstring) (res : CSSUsageResult) :
  length (excelData toFixed2 res) = sum_list (map rowsOf (files res))
  /\ (length (files res) <= length (excelData toFixed2 res))%nat
  /\ (forall row, row ∈ excelData toFixed2 res ->
       exists file, file ∈ files res
         /\ x_fileUrl row = fd_url file
         /\ x_totalBytes row = fd_total file
         /\ x_usedBytes row = fd_used file
         /\ (x_unusedSelector row = None /\ x_unusedBytes row = None
             /\ unusedRules file = []
             \/ exists rule, rule ∈ unusedRules file
                  /\ x_unusedSelector row = Some (selector rule)
                  /\ x_unusedBytes row = Some (bytes rule)))
  /\ (forall before file after,
        files res = before ++ file :: after ->
        let first := sum_list (map rowsOf before) in
        let row := mkExcelRow (fd_url file) (fd_total file) (fd_used file)
                     (toFixed2 (fileUsage file) ++ str "%") in
        (unusedRules file = [] ->
         excelData toFixed2 res !! first = Some (row None None))
        /\ (forall j rule, unusedRules file !! j = Some rule ->
            excelData toFixed2 res !! (first + j)%nat
            = Some (row (Some (selector rule)) (Some (bytes rule))))).
Proof.
  unfold excelData.
  pose proof (flat_map_rows_length toFixed2 (files res)) as Hlen.
  split; [exact Hlen|]. split; [|split].
  - rewrite Hlen. clear Hlen.
    induction (files res) as [|file fs IH]; simpl; [done|].
    unfold rowsOf at 1. lia.
  - intros row. rewrite list_elem_of_In, in_flat_map.
    intros (file & Hfile%list_elem_of_In & Hrow%list_elem_of_In).
    exists file. split; [done|].
    destruct (fileRows_row _ _ _ Hrow) as (H1 & H2 & H3 & _ & H5).
    by repeat split.
  - intros before file after Hfiles.
    set (first := sum_list (map rowsOf before)). rewrite Hfiles.
    rewrite flat_map_app. simpl.
    destruct (fileRows_lookup toFixed2 file) as [Hnone Hsome].
    assert (Hfirst : length (flat_map (fileRows toFixed2) before) = first)
      by apply flat_map_rows_length.
    assert (Hat : forall j r, fileRows toFixed2 file !! j = Some r ->
              (flat_map (fileRows toFixed2) before
               ++ fileRows toFixed2 file
               ++ flat_map (fileRows toFixed2) after) !! (first + j)%nat
              = Some r).
    { intros j r Hj. rewrite lookup_app_r by lia.
      replace (first + j - length (flat_map (fileRows toFixed2) before))%nat
        with j by lia.
      by apply lookup_app_l_Some. }
    split.
    + intros Hu. rewrite <- (Nat.add_0_r first). apply Hat. by apply Hnone.
    + intros j rule Hj. apply Hat. by apply Hsome.
Qed.

(** X12. The percentage of one file on the page is taken without a
    guard: for a file of the analysis it is a finite number exactly when
    the stylesheet's text is not empty, and it is NaN for an empty
    stylesheet with no range. *)
Theorem fileUsage_unguarded (entry : CoverageEntry) :
  ((exists q, fileUsage (fileDetail entry) = JFin q) <-> ce_text entry <> [])
  /\ (ce_text entry = [] -> ce_ranges entry = [] ->
      fileUsage (fileDetail entry) = JNaN).
Proof.
  unfold fileUsage. simpl. unfold js_div, jslength. split.
  - destruct (ce_text entry) as [|c text]; simpl.
    + split; [|done]. intros [q H].
      by destruct (usedOf (ce_ranges entry) =? 0).
    + split; [done|]. intros _. eexists. reflexivity.
  - by intros -> ->.
Qed.

(** ** The navigation loop *)

(** The loop from any value of [retries], after [g] calls and [s]
    milliseconds. *)
Lemma navigate_spec (goto : nat -> attempt) (n : nat) : forall g s,
  match navigate goto n g s with
  | Left gotos slept =>
      n = 0%nat /\ gotos = g /\ slept = s
      \/ (g < gotos <= g + n)%nat
         /\ goto (gotos - 1)%nat = Resolved
         /\ (forall j, (g <= j < gotos - 1)%nat -> goto j <> Resolved)
         /\ slept = s + 1000 * (Z.of_nat gotos - 1 - Z.of_nat g)
  | Thrown error gotos slept =>
      (0 < n)%nat /\ gotos = (g + n)%nat
      /\ goto (g + n - 1)%nat = Rejected error
      /\ (forall j, (g <= j < g + n)%nat -> goto j <> Resolved)
      /\ slept = s + 1000 * (Z.of_nat n - 1)
  end.
Proof.
  induction n as [|n IH]; intros g s; simpl; [by left|].
  destruct (goto g) as [|error] eqn:Hg.
  - right. replace (S g - 1)%nat with g by lia.
    repeat split; [lia | lia | done | intros j Hj; lia | lia].
  - destruct n as [|n].
    + replace (g + 1 - 1)%nat with g by lia.
      repeat split; [lia | lia | done | | lia].
      intros j Hj. replace j with g by lia. congruence.
    + specialize (IH (S g) (s + 1000)).
      destruct (navigate goto (S n) (S g) (s + 1000))
        as [gotos slept | error' gotos slept].
      * right. destruct IH as [[Hn _] | (Hb & Hres & Hall & Hs)]; [done|].
        repeat split; [lia | lia | done | | lia].
        intros j Hj. destruct (decide (j = g)) as [->|Hne]; [congruence|].
        apply Hall. lia.
      * destruct IH as (_ & Hgo & Hlast & Hall & Hs).
        replace (g + S (S n) - 1)%nat with (S g + S n - 1)%nat by lia.
        repeat split; [lia | lia | done | | lia].
        intros j Hj. destruct (decide (j = g)) as [->|Hne]; [congruence|].
        apply Hall. lia.
Qed.

(** X13. The page is loaded with at most three calls of [page.goto]: the
    loop is left after the first call that resolves, having waited one
    second after each call that failed before it; when the first three
    calls all fail, the error of the third is thrown, two seconds having
    been waited, none of them after the last failure. *)
Theorem navigation_outcome (goto : nat -> attempt) :
  match navigation goto with
  | Left gotos slept =>
      (1 <= gotos <= 3)%nat
      /\ goto (gotos - 1)%nat = Resolved
      /\ (forall j, (j < gotos - 1)%nat -> goto j <> Resolved)
      /\ slept = 1000 * (Z.of_nat gotos - 1)
  | Thrown error gotos slept =>
      gotos = 3%nat
      /\ goto 2%nat = Rejected error
      /\ (forall j, (j < 3)%nat -> goto j <> Resolved)
      /\ slept = 2000
  end.
Proof.
  pose proof (navigate_spec goto 3 0 0) as H. unfold navigation.
  destruct (navigate goto 3 0 0) as [gotos slept | error gotos slept].
  - destruct H as [[H _] | (Hb & Hres & Hall & Hs)]; [done|].
    repeat split; [lia | lia | done | | lia].
    intros j Hj. apply Hall. lia.
  - destruct H as (_ & -> & Hlast & Hall & ->).
    repeat split; [done|]. intros j Hj. apply Hall. lia.
Qed.

(** X14. With a browser session whose page load is this loop, a valid
    request that misses the cache is answered 200 with the analysis, and
    the analysis is cached, as soon as one of the first three calls of
    [page.goto] resolves; when all three fail it is answered 500 with
    the message of the third error, and nothing is cached. *)
Theorem handler_navigation (goto : jsstring -> nat -> attempt)
    (coverage : jsstring -> list CoverageEntry)
    (now1 now2 : Z) (req : request) (url : jsstring) (c : cache) :
  method req = str "POST" ->
  valid_url req url ->
  cache_get now1 url c = None ->
  ((exists i, (i < 3)%nat /\ goto url i = Resolved) ->
   handler (session goto coverage) now1 now2 req c
   = (Json 200 (inl (analyze (coverage url))),
      cache_put now2 url (analyze (coverage url)) c))
  /\ (forall message,
        (forall j, (j < 3)%nat -> goto url j <> Resolved) ->
        goto url 2%nat = Rejected (Some message) ->
        handler (session goto coverage) now1 now2 req c
        = (Json 500 (inr (str "CSS analysis failed: " ++ message)), c)).
Proof.
  intros Hm [Hu%body_url_Some Hs] Hc.
  pose proof (navigate_spec (goto url) 3 0 0) as Hnav.
  unfold handler. rewrite bool_decide_eq_true_2 by done.
  rewrite Hu, Hs, Hc. unfold session, navigation.
  destruct (navigate (goto url) 3 0 0) as [gotos slept | error gotos slept].
  - split; [done|]. intros message Hall _.
    destruct Hnav as [[Hn _] | (Hg & Hres & _)]; [done|].
    destruct (Hall (gotos - 1)%nat); [lia | done].
  - destruct Hnav as (_ & _ & H2 & Hall & _). simpl in H2. split.
    + intros (i & Hi & Hres). destruct (Hall i); [lia | done].
    + intros message _ H2'. rewrite H2 in H2'. by injection H2' as ->.
Qed.

Lemma handler_navigation_witness :
  let goto := fun (_ : jsstring) (i : nat) =>
                if (i <? 2)%nat then Rejected None else Resolved in
  let coverage := fun _ : jsstring =>
                    [mkCoverageEntry [] (str ".a{}") [mkRange 0 4]] in
  let req := mkRequest (str "POST") (Some (Some (str "https://example.com"))) in
  let url := str "https://example.com" in
  (exists i, (i < 3)%nat /\ goto url i = Resolved)
  /\ handler (session goto coverage) 0 5 req ∅
     = (Json 200 (inl (analyze (coverage url))),
        cache_put 5 url (analyze (coverage url)) ∅).
Proof.
  intros goto coverage req url.
  assert (Hm : method req = str "POST") by reflexivity.
  assert (Hv : valid_url req url) by (split; reflexivity).
  assert (Hc : cache_get 0 url ∅ = None)
    by (unfold cache_get; rewrite lookup_empty; reflexivity).
  assert (Hr : exists i, (i < 3)%nat /\ goto url i = Resolved)
    by (exists 2%nat; split; [lia | reflexivity]).
  split; [exact Hr|].
  exact (proj1 (handler_navigation goto coverage 0 5 req url ∅ Hm Hv Hc) Hr).
Defined.

(** ** The answers of [handler] and what it does to the cache *)

Section HandlerFacts.

Variable browse : jsstring -> list CoverageEntry + option jsstring.

Implicit Types c : cache.

(** The six ways through [handler]. *)
Lemma handler_cases now1 now2 req c :
  (method req <> str "POST"
   /\ handler browse now1 now2 req c
      = (Json 405 (inr (str "Method Not Allowed")), c))
  \/ (method req = str "POST" /\ req_body req = None
      /\ handler browse now1 now2 req c = (Uncaught, c))
  \/ (method req = str "POST" /\ req_body req <> None
      /\ (forall url, ~ valid_url req url)
      /\ handler browse now1 now2 req c
         = (Json 400 (inr (str "Invalid URL")), c))
  \/ (exists url res,
        method req = str "POST" /\ valid_url req url
        /\ cache_get now1 url c = Some res
        /\ handler browse now1 now2 req c = (Json 200 (inl res), c))
  \/ (exists url cssCoverage,
        method req = str "POST" /\ valid_url req url
        /\ cache_get now1 url c = None /\ browse url = inl cssCoverage
        /\ handler browse now1 now2 req c
           = (Json 200 (inl (analyze cssCoverage)),
              cache_put now2 url (analyze cssCoverage) c))
  \/ (exists url error message,
        method req = str "POST" /\ valid_url req url
        /\ cache_get now1 url c = None /\ browse url = inr error
        /\ message = match error with
                     | Some m => str "CSS analysis failed: " ++ m
                     | None => str "CSS analysis failed"
                     end
        /\ handler browse now1 now2 req c = (Json 500 (inr message), c)).
Proof.
  unfold handler, valid_url, body_url.
  destruct (decide (method req = str "POST")) as [Hm|Hm].
  2:{ left. by rewrite bool_decide_eq_false_2. }
  right. rewrite bool_decide_eq_true_2 by done. cbn [negb].
  destruct (req_body req) as [[url|]|] eqn:Hu.
  3:{ by left. }
  2:{ right. left. split; [done|]. split; [done|]. split; [|done].
      by intros url [? _]. }
  right. destruct (startsWith url (str "http")) eqn:Hs; cbn [negb].
  2:{ left. split; [done|]. split; [done|]. split; [|done].
      intros url' [[= <-] Hs']. congruence. }
  right. destruct (cache_get now1 url c) as [res|] eqn:Hc.
  { left. by exists url, res. }
  right. destruct (browse url) as [cov|error] eqn:Hb.
  { left. by exists url, cov. }
  right. exists url, error.
  destruct error as [message|]; eexists; repeat split; done.
Qed.

End HandlerFacts.

(** X15. What [handler] does with a request. With a method other than
    POST it answers 405, and only then. With POST and a body that is
    null or undefined it throws before the [try] and sends no answer,
    and only then. It answers 400 exactly for a POST with a body whose
    URL is absent, not a string or does not start with "http"; 500
    exactly for a valid request that misses the cache and whose browser
    session fails; 200 otherwise, and exactly then the body is a
    result. *)
Theorem handler_status
    (browse : jsstring -> list CoverageEntry + option jsstring)
    (now1 now2 : Z) (req : request) (c : cache) :
  let r := fst (handler browse now1 now2 req c) in
  (r = Uncaught <-> method req = str "POST" /\ req_body req = None)
  /\ (status_of r = Some 405 <-> method req <> str "POST")
  /\ (status_of r = Some 400
      <-> method req = str "POST" /\ req_body req <> None
          /\ forall url, ~ valid_url req url)
  /\ (status_of r = Some 500
      <-> exists url error,
            method req = str "POST" /\ valid_url req url
            /\ cache_get now1 url c = None /\ browse url = inr error)
  /\ (status_of r = Some 200 <-> exists res, body_of r = Some (inl res))
  /\ (r = Uncaught \/ status_of r = Some 200 \/ status_of r = Some 400
      \/ status_of r = Some 405 \/ status_of r = Some 500).
Proof.
  intros r. subst r.
  assert (Huniq : forall url url',
            valid_url req url -> valid_url req url' -> url' = url)
    by (intros url url' [Hu _] [Hu' _]; congruence).
  assert (Hnone : req_body req = None -> forall url, ~ valid_url req url).
  { intros Hb url [Hu _]. unfold body_url in Hu. by rewrite Hb in Hu. }
  destruct (handler_cases browse now1 now2 req c)
    as [(Hm & ->) | [(Hm & Hb & ->) | [(Hm & Hb & Hno & ->)
       | [(url & res & Hm & Hv & Hc & ->)
       | [(url & cov & Hm & Hv & Hc & Hb & ->)
       | (url & error & message & Hm & Hv & Hc & Hb & _ & ->)]]]]];
    cbn [fst status_of body_of].
  - split; [split; [done | by intros [? _]]|].
    split; [done|]. split; [split; [done | by intros [? _]]|].
    split; [split; [done | by intros (? & ? & ? & _)]|].
    split; [split; [done | by intros [? [=]]]|]. tauto.
  - split; [done|]. split; [done|].
    split; [split; [done | by intros (_ & ? & _)]|].
    split; [split; [done | intros (url & ? & _ & Hv & _); by destruct (Hnone Hb url)]|].
    split; [split; [done | by intros [? [=]]]|]. tauto.
  - split; [split; [done | by intros [_ ?]]|].
    split; [done|]. split; [done|].
    split; [split; [done | intros (url & ? & _ & Hv & _); by destruct (Hno url)]|].
    split; [split; [done | by intros [? [=]]]|]. tauto.
  - split; [split; [done | intros [_ Hb]; by destruct (Hnone Hb url)]|].
    split; [done|].
    split; [split; [done | intros (_ & _ & Hno); by destruct (Hno url)]|].
    split; [split; [done|]|].
    { intros (url' & e & _ & Hv' & Hc' & _).
      rewrite (Huniq _ _ Hv Hv') in Hc'. congruence. }
    split; [split; [by eexists | done]|]. tauto.
  - split; [split; [done | intros [_ Hb']; by destruct (Hnone Hb' url)]|].
    split; [done|].
    split; [split; [done | intros (_ & _ & Hno); by destruct (Hno url)]|].
    split; [split; [done|]|].
    { intros (url' & e & _ & Hv' & _ & Hb').
      rewrite (Huniq _ _ Hv Hv') in Hb'. congruence. }
    split; [split; [by eexists | done]|]. tauto.
  - split; [split; [done | intros [_ Hb']; by destruct (Hnone Hb' url)]|].
    split; [done|].
    split; [split; [done | intros (_ & _ & Hno); by destruct (Hno url)]|].
    split; [split; [by exists url, error | done]|].
    split; [split; [done | by intros [? [=]]]|]. tauto.
Qed.

(** X16. A request changes the cache at most at the key of its own URL,
    and only when it is answered with a newly computed result, which is
    then the value stored; a request that is refused, fails, or is
    served from the cache leaves the cache as it is. *)
Theorem handler_cache_frame
    (browse : jsstring -> list CoverageEntry + option jsstring)
    (now1 now2 : Z) (req : request) (c : cache) :
  let r := fst (handler browse now1 now2 req c) in
  let c' := snd (handler browse now1 now2 req c) in
  (status_of r <> Some 200 -> c' = c)
  /\ (forall k, body_url req <> Some k -> c' !! k = c !! k)
  /\ (c' = c
      \/ exists url res,
           body_url req = Some url /\ cache_get now1 url c = None
           /\ r = Json 200 (inl res)
           /\ c' = <[url := mkCacheEntry res now2]> c).
Proof.
  intros r c'. subst r c'.
  destruct (handler_cases browse now1 now2 req c)
    as [(Hm & ->) | [(Hm & Hb & ->) | [(Hm & Hb & Hno & ->)
       | [(url & res & Hm & Hv & Hc & ->)
       | [(url & cov & Hm & Hv & Hc & Hb & ->)
       | (url & error & message & Hm & Hv & Hc & Hb & _ & ->)]]]]];
    cbn [fst snd status_of];
    try (split; [done | split; [done | by left]]).
  destruct Hv as [Hu _]. split; [done | split].
  - intros k Hk. unfold cache_put. apply lookup_insert_ne. congruence.
  - right. by exists url, (analyze cov).
Qed.

(** X17. The cache only ever holds analyses of coverage under URLs that
    passed the check: this holds of the empty cache and is kept by every
    request, so every result that [handler] sends is the analysis of
    some coverage. *)
Theorem handler_keeps_cache_ok
    (browse : jsstring -> list CoverageEntry + option jsstring)
    (now1 now2 : Z) (req : request) (c : cache) :
  cache_ok c ->
  cache_ok (snd (handler browse now1 now2 req c))
  /\ forall res,
       body_of (fst (handler browse now1 now2 req c)) = Some (inl res) ->
       exists cssCoverage, res = analyze cssCoverage.
Proof.
  intros Hok.
  destruct (handler_cases browse now1 now2 req c)
    as [(Hm & ->) | [(Hm & Hb & ->) | [(Hm & Hb & Hno & ->)
       | [(url & res & Hm & Hv & Hc & ->)
       | [(url & cov & Hm & Hv & Hc & Hb & ->)
       | (url & error & message & Hm & Hv & Hc & Hb & _ & ->)]]]]];
    cbn [fst snd body_of];
    try (split; [done | by intros res' [=]]).
  - split; [done|]. intros res' [= <-].
    unfold cache_get in Hc. destruct (c !! url) as [e|] eqn:He; [|done].
    destruct (_ <? _); [|done]. injection Hc as <-.
    by destruct (Hok url e He) as [_ H].
  - split; [|intros res' [= <-]; by exists cov].
    intros k e. unfold cache_put. rewrite lookup_insert.
    destruct (decide (url = k)) as [<-|Hne].
    + intros [= <-]. split; [by destruct Hv | by exists cov].
    + apply Hok.
Qed.

Lemma handler_keeps_cache_ok_witness :
  let browse := fun _ : jsstring =>
                  inl [mkCoverageEntry [] (str ".a{}") [mkRange 0 4]] in
  let req := mkRequest (str "POST") (Some (Some (str "http://example.com"))) in
  cache_ok ∅
  /\ cache_ok (snd (handler browse 0 5 req ∅))
  /\ forall res,
       body_of (fst (handler browse 0 5 req ∅)) = Some (inl res) ->
       exists cssCoverage, res = analyze cssCoverage.
Proof.
  intros browse req.
  assert (H : cache_ok ∅) by (intros k e He; by rewrite lookup_empty in He).
  split; [exact H|].
  exact (handler_keeps_cache_ok browse 0 5 req ∅ H).
Defined.

(** X18. Round trip through [handler]: once a request has been answered
    with a newly computed result, a later request for the same URL gets
    that same result, whatever the browser would now give, and leaves
    the cache as it is, as long as less than an hour has passed since
    the result was stored; from then on the page is analysed again and
    the new result replaces the old one. *)
Theorem handler_round_trip
    (browse browse' : jsstring -> list CoverageEntry + option jsstring)
    (now1 now2 now3 now4 : Z) (req : request) (url : jsstring)
    (cssCoverage cssCoverage' : list CoverageEntry) (c : cache) :
  method req = str "POST" ->
  valid_url req url ->
  cache_get now1 url c = None ->
  browse url = inl cssCoverage ->
  browse' url = inl cssCoverage' ->
  let c' := snd (handler browse now1 now2 req c) in
  (now3 - now2 < CACHE_TTL ->
   handler browse' now3 now4 req c'
   = (Json 200 (inl (analyze cssCoverage)), c'))
  /\ (now3 - now2 >= CACHE_TTL ->
      handler browse' now3 now4 req c'
      = (Json 200 (inl (analyze cssCoverage')),
         cache_put now4 url (analyze cssCoverage') c)).
Proof.
  intros Hm [Hu Hs] Hc Hb Hb' c'. subst c'.
  rewrite (handler_computes browse _ _ _ _ _ _ Hm Hu Hs Hc Hb). simpl.
  split; intros Ht.
  - apply (handler_cached _ _ _ _ url); try done.
    rewrite cache_get_put.
    by destruct (Z.ltb_spec (now3 - now2) CACHE_TTL); [|lia].
  - rewrite (handler_computes browse' _ _ _ url cssCoverage'); try done.
    + unfold cache_put. by rewrite insert_insert_eq.
    + rewrite cache_get_put.
      by destruct (Z.ltb_spec (now3 - now2) CACHE_TTL); [lia|].
Qed.

Lemma handler_round_trip_witness :
  let cov := [mkCoverageEntry [] (str ".a{}") [mkRange 0 4]] in
  let browse := fun _ : jsstring => @inl _ (option jsstring) cov in
  let browse' := fun _ : jsstring => @inl _ (option jsstring) [] in
  let req := mkRequest (str "POST") (Some (Some (str "http://example.com"))) in
  let c' := snd (handler browse 0 5 req ∅) in
  handler browse' 1000 1001 req c' = (Json 200 (inl (analyze cov)), c')
  /\ handler browse' 4000000 4000001 req c'
     = (Json 200 (inl (analyze [])),
        cache_put 4000001 (str "http://example.com") (analyze []) ∅).
Proof.
  intros cov browse browse' req c'.
  assert (Hm : method req = str "POST") by reflexivity.
  assert (Hv : valid_url req (str "http://example.com"))
    by (split; reflexivity).
  assert (Hc : cache_get 0 (str "http://example.com") ∅ = None)
    by (unfold cache_get; rewrite lookup_empty; reflexivity).
  assert (H1 : 1000 - 5 < CACHE_TTL) by (unfold CACHE_TTL; lia).
  assert (H2 : 4000000 - 5 >= CACHE_TTL) by (unfold CACHE_TTL; lia).
  split.
  - exact (proj1 (handler_round_trip browse browse' 0 5 1000 1001 req _
                    cov [] ∅ Hm Hv Hc eq_refl eq_refl) H1).
  - exact (proj2 (handler_round_trip browse browse' 0 5 4000000 4000001 req _
                    cov [] ∅ Hm Hv Hc eq_refl eq_refl) H2).
Defined.
